(** * credit-report-worker: the PDF-to-credit-items pipeline of [index.js]

    A shallow embedding of the worker's pipeline (text extraction with OCR
    fallback, line chunking, per-chunk structured extraction, deduplication
    and the [/process] job handler) together with the properties its
    specification states about it.

    Conventions.
    - A JavaScript string is a [string]; one [ascii] stands for one code unit,
      so the texts of the model are those whose code units are below 256.
    - A value produced by [JSON.parse] is a [jsval]; a number is given by the
      decimal digits and exponent that Number::toString prints, so integers
      of any size and fractions are numbers of the model.
    - Asynchronous code is sequential here: every [await] is a bind of the
      monad [M], which threads the persistence store and carries exceptions.
    - The collaborators the worker calls (object storage, pdf-parse, the OCR
      engine, the language service, the item table) are fields of a [world]
      record that fixes what each call returns or throws. *)

From Stdlib Require Import ZArith QArith Lia String Ascii List.
From stdpp Require Import base gmap list strings pretty.

Local Open Scope string_scope.
Local Open Scope list_scope.
Local Open Scope nat_scope.
Local Set Warnings "-register-all".

(** ** Strings *)

Module Str.

Definition LF : ascii := "010"%char.

(** The one-character string of a line feed. *)
Definition NL : string := String LF "".

(** [s.length] *)
Abbreviation length := String.length.

(** A string is truthy when it is not empty. *)
Definition truthy (s : string) : bool :=
  match s with "" => false | String _ _ => true end.

(** [text.split(sep)] for a one-character separator: the pieces between
    the separators, in order; the empty text gives one empty piece. *)
Fixpoint split (sep : ascii) (text : string) : list string :=
  match text with
  | "" => [""]
  | String c rest =>
      if Ascii.eqb c sep then "" :: split sep rest
      else match split sep rest with
           | [] => [String c ""]
           | piece :: pieces => String c piece :: pieces
           end
  end.

(** The strings of a list, one after the other. *)
Definition concat (l : list string) : string := fold_right String.append "" l.

(** [Array.prototype.join] on strings. *)
Fixpoint join (sep : string) (l : list string) : string :=
  match l with
  | [] => ""
  | [s] => s
  | s :: rest => s +:+ sep +:+ join sep rest
  end.

(** White space and line terminators of [String.prototype.trim], among the
    code units below 256: TAB, LF, VT, FF, CR, SP and NBSP. *)
Definition is_white (c : ascii) : bool :=
  match c with
  | "009" | "010" | "011" | "012" | "013" | " " | "160" => true
  | _ => false
  end%char.

Fixpoint trimStart (s : string) : string :=
  match s with
  | "" => ""
  | String c rest => if is_white c then trimStart rest else s
  end.

(** [trimEnd]: a white character is dropped when nothing but white space
    follows it. *)
Fixpoint trimEnd (s : string) : string :=
  match s with
  | "" => ""
  | String c rest =>
      match trimEnd rest with
      | "" => if is_white c then "" else String c ""
      | kept => String c kept
      end
  end.

(** [s.trim()] *)
Definition trim (s : string) : string := trimEnd (trimStart s).

(** [n] copies of one character. *)
Fixpoint replicate (n : nat) (c : ascii) : string :=
  match n with
  | 0 => ""
  | S k => String c (replicate k c)
  end.

End Str.

(** ** The chunker *)

(** The two variables of the loop of [chunkText]. *)
Record chunker := Chunker {
  chunks : list string;
  currentChunk : string
}.

(** One iteration of [for (const line of lines)]. *)
Definition chunk_line (maxChunkSize : nat) (st : chunker) (line : string) : chunker :=
  let st :=
    if maxChunkSize <? Str.length (currentChunk st +:+ line) then
      if Str.truthy (currentChunk st)
      then Chunker (chunks st ++ [currentChunk st]) ""
      else st
    else st in
  Chunker (chunks st) (currentChunk st +:+ line +:+ Str.NL).

(** [chunkText(text, maxChunkSize)] *)
Definition chunkText (text : string) (maxChunkSize : nat) : list string :=
  let lines := Str.split Str.LF text in
  let st := fold_left (chunk_line maxChunkSize) lines (Chunker [] "") in
  if Str.truthy (currentChunk st)
  then chunks st ++ [currentChunk st]
  else chunks st.

(** The default of the parameter: [maxChunkSize = 12000]. *)
Definition defaultMaxChunkSize : nat := 12 * 1000.

(** ** JavaScript values *)

(** What a call returns, or the exception it throws; an exception is
    identified with its [message]. *)
Inductive outcome (A : Type) : Type :=
| Returned (a : A)
| Threw (message : string).
Arguments Returned {A} a.
Arguments Threw {A} message.

Global Instance outcome_ret : MRet outcome := @Returned.
Global Instance outcome_bind : MBind outcome := λ A B k o,
  match o with
  | Returned a => k a
  | Threw e => Threw e
  end.

(** A finite number, as Number::toString sees it: zero, or a sign, the
    decimal digits [s] and the exponent [n], standing for [s * 10^(n - k)]
    where [k] is the count of the digits of [s] once its trailing zeros are
    dropped ([-0] is [Zero]: the worker looks at a number through ToBoolean
    and ToString only, which do not tell [0] and [-0] apart). *)
Inductive jsnum : Type :=
| Zero
| Finite (negative : bool) (s : positive) (n : Z).

Module Num.

Fixpoint zeros (count : nat) : string :=
  match count with
  | 0 => ""
  | S k => String "0" (zeros k)
  end.

(** The digits without their trailing zeros. *)
Fixpoint significant (d : string) : string :=
  match d with
  | "" => ""
  | String c rest =>
      match significant rest with
      | "" => if Ascii.eqb c "0" then "" else String c ""
      | kept => String c kept
      end
  end.

(** An integer as a number. *)
Definition of_Z (z : Z) : jsnum :=
  match z with
  | Z0 => Zero
  | Zpos p => Finite false p (Z.of_nat (String.length (pretty (Npos p))))
  | Zneg p => Finite true p (Z.of_nat (String.length (pretty (Npos p))))
  end.

(** Number::toString for a positive number, steps 7 to 11: the digits
    followed by zeros, the digits around a decimal point, the digits behind
    [0.] and zeros, or the exponential notation. *)
Definition magnitude (s : positive) (n : Z) : string :=
  let d := significant (pretty (Npos s)) in
  let k := Z.of_nat (String.length d) in
  if (k <=? n)%Z && (n <=? 21)%Z then
    d +:+ zeros (Z.to_nat (n - k))
  else if (0 <? n)%Z && (n <=? 21)%Z then
    substring 0 (Z.to_nat n) d +:+ "." +:+ substring (Z.to_nat n) (Z.to_nat (k - n)) d
  else if (-6 <? n)%Z && (n <=? 0)%Z then
    "0." +:+ zeros (Z.to_nat (- n)) +:+ d
  else
    let e := (n - 1)%Z in
    let exponent := (if (e <? 0)%Z then "-" else "+") +:+ pretty (Z.abs e) in
    match d with
    | "" => ""
    | String c "" => String c "" +:+ "e" +:+ exponent
    | String c rest => String c "" +:+ "." +:+ rest +:+ "e" +:+ exponent
    end.

(** Number::toString *)
Definition toString (x : jsnum) : string :=
  match x with
  | Zero => "0"
  | Finite negative s n => (if negative then "-" else "") +:+ magnitude s n
  end.

End Num.

Coercion Num.of_Z : Z >-> jsnum.

(** The values [JSON.parse] builds, and [undefined], which reading an absent
    property gives. An object lists its own properties. *)
Inductive jsval : Type :=
| VUndefined
| VNull
| VBool (b : bool)
| VNum (n : jsnum)
| VStr (s : string)
| VArr (elements : list jsval)
| VObj (props : list (string * jsval)).
Arguments VNum n%_Z.

Module Js.

(** ToBoolean: [undefined], [null], [false], [0] and the empty string are
    falsy ([NaN] is not a value [JSON.parse] builds). *)
Definition truthy (v : jsval) : bool :=
  match v with
  | VUndefined | VNull => false
  | VBool b => b
  | VNum Zero => false
  | VNum (Finite _ _ _) => true
  | VStr s => Str.truthy s
  | VArr _ | VObj _ => true
  end.

(** [a || b] *)
Definition or (a b : jsval) : jsval := if truthy a then a else b.

Definition own (key : string) (props : list (string * jsval)) : option jsval :=
  snd <$> find (λ p, String.eqb (fst p) key) props.

(** [v.key], for the property names the worker reads ([items], [accounts],
    [creditor], [type], [amount], ...): none of them is defined on the
    prototype of an object, an array, a string, a number or a boolean, so
    only an own property of an object gives a value; on [null] and
    [undefined] the read throws a TypeError. *)
Definition get (v : jsval) (key : string) : outcome jsval :=
  match v with
  | VUndefined =>
      Threw ("Cannot read properties of undefined (reading '" +:+ key +:+ "')")
  | VNull =>
      Threw ("Cannot read properties of null (reading '" +:+ key +:+ "')")
  | VObj props => Returned (default VUndefined (own key props))
  | VBool _ | VNum _ | VStr _ | VArr _ => Returned VUndefined
  end.

(** ToString, as a template literal applies it. An array is its elements
    joined by commas, [null] and [undefined] elements giving the empty
    string; an object is ["[object Object]"], unless an own property
    shadows [toString]: a parsed value is never callable, ToPrimitive then
    falls to [valueOf], which returns the object, and throws. *)
Fixpoint ToString (v : jsval) : outcome string :=
  match v with
  | VUndefined => Returned "undefined"
  | VNull => Returned "null"
  | VBool b => Returned (if b then "true" else "false")
  | VNum n => Returned (Num.toString n)
  | VStr s => Returned s
  | VArr elements =>
      (fix join (l : list jsval) : outcome string :=
         match l with
         | [] => Returned ""
         | x :: rest =>
             let first :=
               match x with
               | VUndefined | VNull => Returned ""
               | _ => ToString x
               end in
             match rest with
             | [] => first
             | _ :: _ =>
                 match first with
                 | Threw e => Threw e
                 | Returned s =>
                     match join rest with
                     | Threw e => Threw e
                     | Returned r => Returned (s +:+ "," +:+ r)
                     end
                 end
             end
         end) elements
  | VObj props =>
      match own "toString" props with
      | Some _ => Threw "Cannot convert object to primitive value"
      | None => Returned "[object Object]"
      end
  end.

(** [Array.isArray(v)], with the elements. *)
Definition asArray (v : jsval) : option (list jsval) :=
  match v with VArr elements => Some elements | _ => None end.

End Js.

(** ** The persistence store *)

(** The [status] column of [pdf_processing_jobs]. The worker writes
    ['processing'], ['completed'] and ['failed']; [queued] is the status a
    job is created with, outside the worker. *)
Inductive job_status : Type := queued | processing | completed | failed.

Global Instance job_status_eq_dec : EqDecision job_status.
Proof. solve_decision. Defined.

(** An entry of [result_json.negative_accounts]. *)
Record negative_account := NegativeAccount {
  na_creditor : jsval;
  na_type : jsval;
  na_amount_cents : jsval;
  na_bureaus : jsval
}.

(** [result_json] of a completed job. *)
Record summary := Summary {
  total_items : nat;
  negative_items : nat;
  items_saved : bool;
  negative_accounts : list negative_account
}.

(** A row of [pdf_processing_jobs]. *)
Record job := Job {
  status : job_status;
  started_at : option string;
  completed_at : option string;
  error_message : option string;
  result_json : option summary
}.

(** A row handed to [credit_items.upsert]. *)
Record credit_item := CreditItem {
  profile_id : string;
  creditor : jsval;
  type : jsval;
  amount_cents : jsval;
  opened_date : jsval;
  reported_date : jsval;
  account_last4 : jsval;
  bureaus : jsval;
  is_negative : jsval;
  notes : jsval;
  item_status : string;
  confidence : Q
}.

(** What the handler sends back: [res.json(...)] or
    [res.status(500).json(...)]. *)
Inductive response : Type :=
| Success (jobId : string) (totalItems negativeItems : nat)
| Failure (error : string).

(** What one invocation reads and changes: the two tables, the job-status
    writes issued so far (oldest first), the rows the item table accepted
    (oldest first), the responses sent and the number of times the OCR
    fallback was entered. *)
Record state := State {
  pdf_processing_jobs : gmap string job;
  credit_items : list credit_item;
  status_writes : list (string * job_status);
  sent : list response;
  ocr_invocations : nat
}.

(** ** Effects *)

(** A computation that may change the state and either returns or throws;
    what it changed before throwing stays changed. *)
Definition M (A : Type) : Type := state → outcome A * state.

Global Instance M_ret : MRet M := λ A a σ, (Returned a, σ).
Global Instance M_bind : MBind M := λ A B k m σ,
  match m σ with
  | (Returned a, σ') => k a σ'
  | (Threw e, σ') => (Threw e, σ')
  end.

(** [throw new Error(message)] *)
Definition throw {A} (message : string) : M A := λ σ, (Threw message, σ).

(** [try { body } catch (error) { handler }] *)
Definition try_catch {A} (body : M A) (handler : string → M A) : M A := λ σ,
  match body σ with
  | (Returned a, σ') => (Returned a, σ')
  | (Threw e, σ') => handler e σ'
  end.

(** A call that touches nothing of the state. *)
Definition call {A} (o : outcome A) : M A := λ σ, (o, σ).

(** [for (const x of l) { body }], with the position of [x] in [l]. *)
Fixpoint for_of {A} (i : nat) (l : list A) (body : nat → A → M unit) : M unit :=
  match l with
  | [] => mret ()
  | x :: rest => body i x ;; for_of (S i) rest body
  end.

(** [supabase.from('pdf_processing_jobs').update(columns).eq('id', jobId)]:
    the row of that id, when there is one, gets the columns. The interface
    of the store gives this write no failure, and the handler does not look
    at what it resolves to. *)
Definition update_job (jobId : string) (s : job_status) (columns : job → job) : M unit := λ σ,
  (Returned (),
   State (alter columns jobId (pdf_processing_jobs σ))
         (credit_items σ)
         (status_writes σ ++ [(jobId, s)])
         (sent σ)
         (ocr_invocations σ)).

(** [res.json(body)] *)
Definition send (r : response) : M unit := λ σ,
  (Returned (),
   State (pdf_processing_jobs σ) (credit_items σ) (status_writes σ)
         (sent σ ++ [r]) (ocr_invocations σ)).

(** ** Collaborators *)

(** The bytes of a PDF file. *)
Abbreviation buffer := (list Byte.byte).

(** One run of the OCR engine over a document: what each call of
    [extractTextWithOCR] gets from tesseract.js and pdf2pic. *)
Record ocr_run := OcrRun {
  createWorker : outcome unit;
  (** [require('pdf2pic')] and [fromBuffer(pdfBuffer, options)] *)
  fromBuffer : outcome unit;
  (** [converter(i, ...)]: whether [result.buffer] is truthy *)
  convert : nat → outcome bool;
  (** [worker.recognize(result.buffer)] for page [i]: [data.text] *)
  recognize : nat → outcome string;
  (** [worker.terminate()] at the end of the [try] block *)
  terminate : outcome unit;
  (** [worker.terminate()] in the [catch] block *)
  terminate_on_error : outcome unit
}.

(** What [storage.download] resolves to: [{ data, error }]. *)
Record download_reply := DownloadReply {
  data : option buffer;
  error : option string
}.

Record world := World {
  download : string → outcome download_reply;
  (** [pdfParse(pdfBuffer)]: [data.text] *)
  pdfParse : buffer → outcome string;
  (** the [k]-th entry into the OCR fallback during the invocation *)
  ocr : nat → buffer → ocr_run;
  (** the language service on the [i]-th chunk: the parsed
      [response.choices[0].message.content], or what the request, the read
      of the content or [JSON.parse] throws *)
  chat : nat → string → outcome jsval;
  (** [credit_items.upsert(row)] for the [i]-th kept item *)
  upsert : nat → credit_item → outcome unit;
  (** [new Date().toISOString()] at the start and at the end *)
  started_iso : string;
  finished_iso : string
}.

(** ** Text extraction *)

(** The page loop of [extractTextWithOCR]: pages [1] to [pageCount], a page
    whose conversion or recognition throws, or whose conversion gives no
    buffer, adding nothing. *)
Definition pageCount : nat := 10.

Definition ocr_page (run : ocr_run) (allText : string) (i : nat) : string :=
  match convert run i with
  | Returned true =>
      match recognize run i with
      | Returned text => allText +:+ text +:+ Str.NL +:+ Str.NL
      | Threw _ => allText
      end
  | Returned false | Threw _ => allText
  end.

Definition ocr_pages (run : ocr_run) : string :=
  fold_left (ocr_page run) (seq 1 pageCount) "".

(** Entering the OCR fallback: the run the world has for this entry. *)
Definition enter_ocr (w : world) (pdfBuffer : buffer) : M ocr_run := λ σ,
  (Returned (ocr w (ocr_invocations σ) pdfBuffer),
   State (pdf_processing_jobs σ) (credit_items σ) (status_writes σ)
         (sent σ) (S (ocr_invocations σ))).

(** [extractTextWithOCR(pdfBuffer)] *)
Definition extractTextWithOCR (w : world) (pdfBuffer : buffer) : M string :=
  run ← enter_ocr w pdfBuffer;
  call (createWorker run) ;;
  try_catch
    (call (fromBuffer run) ;;
     let allText := ocr_pages run in
     call (terminate run) ;;
     mret allText)
    (λ error,
       call (terminate_on_error run) ;;
       throw error).

(** The threshold of [extractPdfText] and of the handler. *)
Definition minTextLength : nat := 100.

(** [data.text && data.text.trim().length > 100] *)
Definition has_text_layer (text : string) : bool :=
  Str.truthy text && (minTextLength <? Str.length (Str.trim text)).

(** [extractPdfText(pdfBuffer)]. The [return await] of the fallback stands
    inside the [try] block, so when that OCR run throws the [catch] block
    enters the fallback once more. *)
Definition extractPdfText (w : world) (pdfBuffer : buffer) : M string :=
  try_catch
    (text ← call (pdfParse w pdfBuffer);
     if has_text_layer text then mret text
     else extractTextWithOCR w pdfBuffer)
    (λ _, extractTextWithOCR w pdfBuffer).

(** ** Structured extraction and deduplication *)

(** [parsed.items || parsed.accounts || []], and the records it holds when
    it is an array. *)
Definition records_of (parsed : jsval) : outcome (list jsval) :=
  items ← Js.get parsed "items";
  items ← (if Js.truthy items then mret items
           else accounts ← Js.get parsed "accounts";
                mret (Js.or accounts (VArr [])));
  mret (default [] (Js.asArray items)).

(** What one iteration of the loop over the chunks pushes on [allItems],
    given what the language service gave for the chunk: the records of the
    parsed reply, or nothing when anything in the [try] block throws. *)
Definition pushed (reply : outcome jsval) : list jsval :=
  match reply ≫= records_of with
  | Returned items => items
  | Threw _ => []
  end.

Definition chunk_records (w : world) (i : nat) (chunk : string) : list jsval :=
  pushed (chat w i chunk).

Fixpoint collect (w : world) (i : nat) (chunks : list string) (allItems : list jsval)
  : list jsval :=
  match chunks with
  | [] => allItems
  | chunk :: rest => collect w (S i) rest (allItems ++ chunk_records w i chunk)
  end.

(** The key of the deduplication:
    [`${item.creditor}-${item.type}-${item.amount || 0}`]. *)
Definition dedupKey (item : jsval) : outcome string :=
  creditor ← Js.get item "creditor" ≫= Js.ToString;
  type ← Js.get item "type" ≫= Js.ToString;
  amount ← Js.get item "amount";
  amount ← Js.ToString (Js.or amount (VNum 0));
  mret (creditor +:+ "-" +:+ type +:+ "-" +:+ amount).

(** The deduplication loop, with its set [seen] and its list
    [uniqueItems]. *)
Fixpoint dedup_loop (allItems : list jsval) (seen : gset string)
    (uniqueItems : list jsval) : outcome (list jsval) :=
  match allItems with
  | [] => Returned uniqueItems
  | item :: rest =>
      key ← dedupKey item;
      if decide (key ∈ seen)
      then dedup_loop rest seen uniqueItems
      else dedup_loop rest ({[key]} ∪ seen) (uniqueItems ++ [item])
  end.

Definition deduplicate (allItems : list jsval) : outcome (list jsval) :=
  dedup_loop allItems ∅ [].

(** [processChunksWithOpenAI(chunks, profileId)]; [profileId] is not used. *)
Definition processChunksWithOpenAI (w : world) (chunks : list string)
    (profileId : string) : M (list jsval) :=
  call (deduplicate (collect w 0 chunks [])).

(** ** The job handler *)

(** [req.body] *)
Record request := Request {
  jobId : string;
  profileId : string;
  filePath : string;
  fileName : string
}.

Definition TO_SEND : string := "TO_SEND".

(** The object literal handed to [upsert] for one item. *)
Definition row_of (profileId : string) (item : jsval) : outcome credit_item :=
  creditor ← Js.get item "creditor";
  type ← Js.get item "type";
  amount ← Js.get item "amount";
  openedDate ← Js.get item "openedDate";
  reportedDate ← Js.get item "reportedDate";
  accountLast4 ← Js.get item "accountLast4";
  bureaus ← Js.get item "bureaus";
  isNegative ← Js.get item "isNegative";
  notes ← Js.get item "notes";
  mret (CreditItem profileId creditor type amount openedDate reportedDate
          accountLast4 bureaus isNegative notes TO_SEND 0.8).

(** [supabase.from('credit_items').upsert(row)]: the table takes the row
    unless the call throws. *)
Definition upsert_item (w : world) (i : nat) (row : credit_item) : M unit := λ σ,
  match upsert w i row with
  | Returned _ =>
      (Returned (),
       State (pdf_processing_jobs σ) (credit_items σ ++ [row])
             (status_writes σ) (sent σ) (ocr_invocations σ))
  | Threw e => (Threw e, σ)
  end.

(** The loop that saves the items, each in its own [try]. *)
Definition save_items (w : world) (profileId : string) (creditItems : list jsval)
  : M unit :=
  for_of 0 creditItems (λ i item,
    try_catch
      (row ← call (row_of profileId item);
       upsert_item w i row)
      (λ saveError, mret ())).

(** [creditItems.filter(item => item.isNegative)] *)
Fixpoint filter_negative (creditItems : list jsval) : outcome (list jsval) :=
  match creditItems with
  | [] => Returned []
  | item :: rest =>
      isNegative ← Js.get item "isNegative";
      kept ← filter_negative rest;
      mret (if Js.truthy isNegative then item :: kept else kept)
  end.

(** [negativeItems.map(item => ({ creditor, type, amount_cents, bureaus }))] *)
Fixpoint project_negative (negativeItems : list jsval) : outcome (list negative_account) :=
  match negativeItems with
  | [] => Returned []
  | item :: rest =>
      creditor ← Js.get item "creditor";
      type ← Js.get item "type";
      amount ← Js.get item "amount";
      bureaus ← Js.get item "bureaus";
      accounts ← project_negative rest;
      mret (NegativeAccount creditor type amount bureaus :: accounts)
  end.

Definition mark_processing (w : world) (j : job) : job :=
  Job processing (Some (started_iso w)) (completed_at j) (error_message j)
      (result_json j).

Definition mark_completed (w : world) (result : summary) (j : job) : job :=
  Job completed (started_at j) (Some (finished_iso w)) (error_message j)
      (Some result).

Definition mark_failed (w : world) (message : string) (j : job) : job :=
  Job failed (started_at j) (Some (finished_iso w)) (Some message)
      (result_json j).

(** The [try] block of the handler. *)
Definition run_job (w : world) (req : request) : M unit :=
  update_job (jobId req) processing (mark_processing w) ;;
  reply ← call (download w (filePath req));
  match error reply with
  | Some message => throw ("Failed to download file: " +:+ message)
  | None => mret ()
  end ;;
  pdfBuffer ← match data reply with
              | Some bytes => mret bytes
              | None => throw "Cannot read properties of null (reading 'arrayBuffer')"
              end;
  extractedText ← extractPdfText w pdfBuffer;
  (if negb (Str.truthy extractedText) || (Str.length extractedText <? minTextLength)
   then throw "Could not extract sufficient text from PDF"
   else mret ()) ;;
  let chunks := chunkText extractedText defaultMaxChunkSize in
  creditItems ← processChunksWithOpenAI w chunks (profileId req);
  save_items w (profileId req) creditItems ;;
  negativeItems ← call (filter_negative creditItems);
  accounts ← call (project_negative negativeItems);
  update_job (jobId req) completed
    (mark_completed w
       (Summary (length creditItems) (length negativeItems) true accounts)) ;;
  send (Success (jobId req) (length creditItems) (length negativeItems)).

(** [app.post('/process', ...)] *)
Definition process (w : world) (req : request) : M unit :=
  try_catch (run_job w req)
    (λ message,
       update_job (jobId req) failed (mark_failed w message) ;;
       send (Failure message)).

(** ** Definitions used by the statements *)

(** A line with the line feed the chunker puts after it. *)
Definition terminated (line : string) : string := line +:+ Str.NL.

(** The chunk made of a group of consecutive lines. *)
Definition render (group : list string) : string :=
  Str.concat (terminated <$> group).

(** A chunk within the bound, or made of one line that alone exceeds it. *)
Definition within_bound (maxChunkSize : nat) (lines : list string) (chunk : string) : Prop :=
  Str.length chunk ≤ maxChunkSize
  ∨ ∃ line, line ∈ lines ∧ chunk = terminated line ∧ maxChunkSize < Str.length line.

(** What the loop guarantees instead: the line feed after the last line of
    a chunk is not counted. *)
Definition within_bound_plus_one (maxChunkSize : nat) (lines : list string) (chunk : string) : Prop :=
  Str.length chunk ≤ S maxChunkSize
  ∨ ∃ line, line ∈ lines ∧ chunk = terminated line ∧ maxChunkSize < Str.length line.

(** The state of the loop of [chunkText], read as the groups of lines
    already flushed and the group being accumulated. *)
Definition tracks (st : chunker) (flushed : list (list string)) (current : list string) : Prop :=
  chunks st = render <$> flushed
  ∧ currentChunk st = render current
  ∧ Forall (λ g, g ≠ []) flushed.

(** The state of the loop of [chunkText] holds chunks that keep the bound
    the loop guarantees, over the lines [all]. *)
Definition bounded (maxChunkSize : nat) (all : list string) (st : chunker) : Prop :=
  Forall (within_bound_plus_one maxChunkSize all) (chunks st)
  ∧ (currentChunk st = "" ∨ within_bound_plus_one maxChunkSize all (currentChunk st)).

Global Instance outcome_eq_dec {A} `{EqDecision A} : EqDecision (outcome A).
Proof. solve_decision. Defined.

(** A record whose key the deduplication can compute. *)
Definition keyable (item : jsval) : Prop := ∃ key, dedupKey item = Returned key.

(** Two records with the same deduplication key. *)
Definition same_key (x y : jsval) : bool := bool_decide (dedupKey x = dedupKey y).

(** The deduplication in the specification's words: going through the
    records in order, a record is kept when no record observed earlier
    shares its key, and discarded otherwise. *)
Fixpoint keep_first_seen (earlier records : list jsval) : list jsval :=
  match records with
  | [] => []
  | r :: rest =>
      if existsb (same_key r) earlier
      then keep_first_seen (earlier ++ [r]) rest
      else r :: keep_first_seen (earlier ++ [r]) rest
  end.

Definition first_occurrences (records : list jsval) : list jsval :=
  keep_first_seen [] records.

(** A value that is neither an array nor an object. *)
Definition primitive (v : jsval) : bool :=
  match v with
  | VArr _ | VObj _ => false
  | VUndefined | VNull | VBool _ | VNum _ | VStr _ => true
  end.

(** An object whose [creditor], [type] and [amount], where present, are
    primitive values: what the extraction schema describes. *)
Definition flat_record (item : jsval) : Prop :=
  ∃ props, item = VObj props
    ∧ primitive (default VUndefined (Js.own "creditor" props)) = true
    ∧ primitive (default VUndefined (Js.own "type" props)) = true
    ∧ primitive (default VUndefined (Js.own "amount" props)) = true.


(** ** Sample data *)

(** The two records of the specification's example, and variants of the
    first with no amount, a [null] amount and a zero amount. *)
Definition acme : jsval :=
  VObj [("creditor", VStr "Acme"); ("type", VStr "COLLECTION"); ("amount", VNum 5000)].

Definition acme_dup : jsval :=
  VObj [("creditor", VStr "Acme"); ("type", VStr "COLLECTION"); ("amount", VNum 5000);
        ("notes", VStr "dup")].

Definition acme_no_amount : jsval :=
  VObj [("creditor", VStr "Acme"); ("type", VStr "COLLECTION")].

Definition acme_null_amount : jsval :=
  VObj [("creditor", VStr "Acme"); ("type", VStr "COLLECTION"); ("amount", VNull);
        ("isNegative", VBool true)].

Definition acme_zero_amount : jsval :=
  VObj [("creditor", VStr "Acme"); ("type", VStr "COLLECTION"); ("amount", VNum 0)].

Definition visa : jsval :=
  VObj [("creditor", VStr "Visa"); ("type", VStr "CREDIT_CARD"); ("amount", VNum 120000);
        ("isNegative", VBool false)].

(** ** The effect of each stage on the state *)

(** [n] more entries into the OCR fallback. *)
Definition add_ocr (n : nat) (σ : state) : state :=
  State (pdf_processing_jobs σ) (credit_items σ) (status_writes σ) (sent σ)
        (n + ocr_invocations σ).

(** More rows in the item table. *)
Definition add_items (rows : list credit_item) (σ : state) : state :=
  State (pdf_processing_jobs σ) (credit_items σ ++ rows) (status_writes σ) (sent σ)
        (ocr_invocations σ).

(** What [extractTextWithOCR] returns or throws on a given run. *)
Definition ocr_result (run : ocr_run) : outcome string :=
  let on_error (e : string) : outcome string :=
    match terminate_on_error run with
    | Returned _ => Threw e
    | Threw e' => Threw e'
    end in
  match createWorker run with
  | Threw e => Threw e
  | Returned _ =>
      match fromBuffer run with
      | Threw e => on_error e
      | Returned _ =>
          match terminate run with
          | Threw e => on_error e
          | Returned _ => Returned (ocr_pages run)
          end
      end
  end.

(** Page [i] of a run adds nothing to the text. *)
Definition page_blank (run : ocr_run) (i : nat) : Prop :=
  convert run i ≠ Returned true ∨ ∃ e, recognize run i = Threw e.

(** The rows the item table accepts from the loop that saves the items. *)
Fixpoint saved_rows (w : world) (profileId : string) (i : nat) (creditItems : list jsval)
  : list credit_item :=
  match creditItems with
  | [] => []
  | item :: rest =>
      match row_of profileId item with
      | Returned row =>
          match upsert w i row with
          | Returned _ => [row]
          | Threw _ => []
          end
      | Threw _ => []
      end ++ saved_rows w profileId (S i) rest
  end.

(** The columns of a row that do not come from the item. *)
Definition to_send (row : credit_item) : Prop :=
  item_status row = "TO_SEND" ∧ confidence row = 0.8%Q.

(** ** Sample worlds *)

Definition ocr_fine (pages : nat → outcome string) : ocr_run :=
  OcrRun (Returned ()) (Returned ()) (λ _, Returned true) pages
         (Returned ()) (Returned ()).

(** A run in which no page can be converted. *)
Definition ocr_blank : ocr_run :=
  OcrRun (Returned ()) (Returned ()) (λ _, Threw "page out of range")
         (λ _, Returned "") (Returned ()) (Returned ()).

Definition sample_request : request :=
  Request "job-1" "profile-1" "reports/1.pdf" "1.pdf".

Definition queued_job : job := Job queued None None None None.

Definition initial : state :=
  State {[ "job-1" := queued_job ]} [] [] [] 0.

(** A report of three lines of 8,000 characters: three chunks. *)
Definition three_lines : string :=
  Str.replicate (8 * 1000) "x" +:+ Str.NL +:+ Str.replicate (8 * 1000) "y" +:+ Str.NL
  +:+ Str.replicate (8 * 1000) "z".

(** A digital report; the language service fails on the second chunk,
    answers the first under [items] and the third under [accounts]. *)
Definition digital : world :=
  World (λ _, Returned (DownloadReply (Some []) None))
        (λ _, Returned three_lines)
        (λ _ _, ocr_blank)
        (λ i _, match i with
                | 0 => Returned (VObj [("items", VArr [acme; visa])])
                | 1 => Threw "429 rate limit"
                | _ => Returned (VObj [("accounts", VArr [acme_dup; acme_null_amount])])
                end)
        (λ _ _, Returned ())
        "2024-01-01T00:00:00.000Z" "2024-01-01T00:01:00.000Z".

(** A scan: pdf-parse throws and the OCR engine recognises no page. *)
Definition blank_scan : world :=
  World (λ _, Returned (DownloadReply (Some []) None))
        (λ _, Threw "Invalid PDF structure")
        (λ _ _, ocr_blank)
        (λ _ _, Returned (VObj []))
        (λ _ _, Returned ())
        "2024-01-01T00:00:00.000Z" "2024-01-01T00:01:00.000Z".

(** A text layer of 50 letters followed by 100 spaces, over a scan the
    OCR engine reads. *)
Definition padded_text : string :=
  Str.replicate 50 "a" +:+ Str.replicate 100 " ".

Definition padded : world :=
  World (λ _, Returned (DownloadReply (Some []) None))
        (λ _, Returned padded_text)
        (λ _ _, ocr_fine (λ i, Returned "scanned page"))
        (λ _ _, Returned (VObj []))
        (λ _ _, Returned ())
        "2024-01-01T00:00:00.000Z" "2024-01-01T00:01:00.000Z".

(** A text layer of 120 letters. *)
Definition typed : world :=
  World (λ _, Returned (DownloadReply (Some []) None))
        (λ _, Returned (Str.replicate 120 "a"))
        (λ _ _, ocr_fine (λ i, Returned "scanned page"))
        (λ _ _, Returned (VObj [("items", VArr [acme])]))
        (λ _ _, Returned ())
        "2024-01-01T00:00:00.000Z" "2024-01-01T00:01:00.000Z".

(** The state once the job is marked [processing]. *)
Definition after_processing (w : world) (req : request) (σ : state) : state :=
  State (alter (mark_processing w) (jobId req) (pdf_processing_jobs σ))
        (credit_items σ)
        (status_writes σ ++ [(jobId req, processing)])
        (sent σ)
        (ocr_invocations σ).

(** The state once a terminal status is written and the response sent. *)
Definition after_terminal (req : request) (s : job_status) (columns : job → job)
    (r : response) (σ : state) : state :=
  State (alter columns (jobId req) (pdf_processing_jobs σ))
        (credit_items σ)
        (status_writes σ ++ [(jobId req, s)])
        (sent σ ++ [r])
        (ocr_invocations σ).

(** ** Definitions used by the further properties *)

(** A group of lines that makes a chunk within the bound the loop keeps, or
    that is a single line. *)
Definition shaped (maxChunkSize : nat) (group : list string) : Prop :=
  Str.length (render group) ≤ S maxChunkSize ∨ ∃ line, group = [line].

(** [tracks], with the shape of the groups. *)
Definition tracks_shaped (maxChunkSize : nat) (st : chunker)
    (flushed : list (list string)) (current : list string) : Prop :=
  tracks st flushed current
  ∧ Forall (shaped maxChunkSize) flushed
  ∧ (current = [] ∨ shaped maxChunkSize current).

(** What page [i] of an OCR run adds to the text. *)
Definition page_text (run : ocr_run) (i : nat) : string :=
  match convert run i with
  | Returned true =>
      match recognize run i with
      | Returned text => text +:+ Str.NL +:+ Str.NL
      | Threw _ => ""
      end
  | Returned false | Threw _ => ""
  end.

(** The message of the insufficient-text error of the handler. *)
Definition insufficient_text : string :=
  "Could not extract sufficient text from PDF".

(** The same world with another item table. *)
Definition with_upsert (w : world) (u : nat → credit_item → outcome unit) : world :=
  World (download w) (pdfParse w) (ocr w) (chat w) u (started_iso w) (finished_iso w).

(** A world whose language service fails on every chunk. *)
Definition outage : world :=
  World (download typed) (pdfParse typed) (ocr typed)
        (λ _ _, Threw "503 service unavailable")
        (upsert typed) (started_iso typed) (finished_iso typed).

(** A world whose storage answers with an error. *)
Definition missing_file : world :=
  World (λ _, Returned (DownloadReply None (Some "Object not found")))
        (pdfParse typed) (ocr typed) (chat typed) (upsert typed)
        (started_iso typed) (finished_iso typed).

(** A record with the three fields of the deduplication key. *)
Definition tradeline (creditor type : string) (amount : jsval) : jsval :=
  VObj [("creditor", VStr creditor); ("type", VStr type); ("amount", amount)].

(** Groups of lines closed only under pressure: each group, with the first
    line of the next group added, exceeds the bound. *)
Fixpoint greedy (maxChunkSize : nat) (groups : list (list string)) : Prop :=
  match groups with
  | [] => True
  | g :: rest =>
      match rest with
      | (line :: _) :: _ => maxChunkSize < Str.length (render g +:+ line)
      | _ => True
      end
      ∧ greedy maxChunkSize rest
  end.

(** ** Definitions used by the statements on the key and on skipped chunks *)

(** The three fields the key is made of, the amount read as
    [item.amount || 0]. *)
Definition key_fields (item : jsval) : outcome (jsval * jsval * jsval) :=
  creditor ← Js.get item "creditor";
  type ← Js.get item "type";
  amount ← Js.get item "amount";
  mret (creditor, type, Js.or amount (VNum 0)).






(** * Properties *)

(** ** Strings *)

Module StrFacts.

Lemma app_nil_l s : "" +:+ s = s.
Proof. done. Qed.

Lemma app_cons c s t : String c s +:+ t = String c (s +:+ t).
Proof. done. Qed.

Lemma app_nil_r s : s +:+ "" = s.
Proof. induction s as [|c s IH]; [done|]. by rewrite app_cons, IH. Qed.

Lemma app_assoc s t u : (s +:+ t) +:+ u = s +:+ t +:+ u.
Proof. induction s as [|c s IH]; [done|]. by rewrite !app_cons, IH. Qed.

Lemma length_app s t : Str.length (s +:+ t) = Str.length s + Str.length t.
Proof. induction s as [|c s IH]; [done|]. rewrite app_cons. cbn. by rewrite IH. Qed.

Lemma truthy_length s : Str.truthy s = true ↔ 0 < Str.length s.
Proof. destruct s; cbn; split; (done || lia). Qed.

Lemma not_truthy s : Str.truthy s = false ↔ s = "".
Proof. by destruct s. Qed.

Lemma concat_cons s l : Str.concat (s :: l) = s +:+ Str.concat l.
Proof. done. Qed.

Lemma concat_app l k : Str.concat (l ++ k) = Str.concat l +:+ Str.concat k.
Proof.
  induction l as [|s l IH]; [done|].
  rewrite <- app_comm_cons, !concat_cons, IH. by rewrite app_assoc.
Qed.

Lemma split_nonempty sep text : Str.split sep text ≠ [].
Proof. destruct text as [|c rest]; cbn; [done|]. repeat case_match; done. Qed.

(** Joining the pieces with the separator gives the text back. *)
Lemma join_split sep text :
  Str.join (String sep "") (Str.split sep text) = text.
Proof.
  induction text as [|c rest IH]; [done|].
  cbn [Str.split]. destruct (Ascii.eqb_spec c sep) as [->|Hne].
  - pose proof (split_nonempty sep rest) as Hn.
    destruct (Str.split sep rest) as [|p ps]; [done|].
    cbn in *. by rewrite IH.
  - destruct (Str.split sep rest) as [|p ps] eqn:E.
    + by destruct (split_nonempty sep rest).
    + destruct ps as [|q qs]; cbn in *; by rewrite <- IH.
Qed.

Lemma trimEnd_length s : Str.length (Str.trimEnd s) ≤ Str.length s.
Proof.
  induction s as [|c s IH]; cbn; [done|].
  destruct (Str.trimEnd s); [destruct (Str.is_white c)|]; cbn in *; lia.
Qed.

Lemma trimStart_length s : Str.length (Str.trimStart s) ≤ Str.length s.
Proof.
  induction s as [|c s IH]; cbn; [done|].
  destruct (Str.is_white c); cbn; lia.
Qed.

Lemma trim_length s : Str.length (Str.trim s) ≤ Str.length s.
Proof.
  unfold Str.trim. etrans; [apply trimEnd_length|apply trimStart_length].
Qed.

End StrFacts.

(** ** The chunker *)

Section Chunker.

Variable maxChunkSize : nat.

Lemma render_nil : render [] = "".
Proof. done. Qed.

Lemma render_snoc group line :
  render (group ++ [line]) = render group +:+ line +:+ Str.NL.
Proof.
  unfold render. rewrite fmap_app, StrFacts.concat_app. cbn [fmap list_fmap].
  rewrite StrFacts.concat_cons. unfold terminated.
  by rewrite StrFacts.app_nil_r.
Qed.

Lemma render_truthy group : group ≠ [] → Str.truthy (render group) = true.
Proof.
  destruct group as [|line rest]; [done|]. intros _.
  unfold render. cbn [fmap list_fmap]. rewrite StrFacts.concat_cons.
  apply StrFacts.truthy_length. unfold terminated.
  rewrite !StrFacts.length_app. cbn. lia.
Qed.

Lemma render_concat groups :
  Str.concat (render <$> groups) = render (concat groups).
Proof.
  induction groups as [|g groups IH]; [done|].
  cbn [fmap list_fmap concat]. rewrite StrFacts.concat_cons, IH.
  unfold render. by rewrite fmap_app, StrFacts.concat_app.
Qed.

Lemma render_join lines :
  lines ≠ [] → render lines = Str.join Str.NL lines +:+ Str.NL.
Proof.
  induction lines as [|l lines IH]; [done|]. intros _.
  unfold render in *. cbn [fmap list_fmap]. rewrite StrFacts.concat_cons.
  destruct lines as [|l' lines].
  - cbn. unfold terminated. by rewrite StrFacts.app_nil_r.
  - rewrite IH by done. cbn [Str.join]. unfold terminated.
    by rewrite !StrFacts.app_assoc.
Qed.

Lemma chunk_line_tracks st flushed current line :
  tracks st flushed current →
  ∃ flushed' current',
    tracks (chunk_line maxChunkSize st line) flushed' current'
    ∧ concat flushed' ++ current' = (concat flushed ++ current) ++ [line]
    ∧ current' ≠ [].
Proof.
  intros (Hc & Hcur & Hne). unfold chunk_line, tracks.
  destruct (maxChunkSize <? _); [destruct (Str.truthy (currentChunk st)) eqn:Ht|].
  - exists (flushed ++ [current]), [line]. cbn [chunks currentChunk].
    split_and!.
    + by rewrite Hc, Hcur, fmap_app.
    + symmetry. apply (render_snoc [] line).
    + apply Forall_app. split; [done|]. constructor; [|done].
      intros ->. by rewrite Hcur in Ht.
    + rewrite concat_app. cbn. by rewrite app_nil_r.
    + done.
  - apply StrFacts.not_truthy in Ht.
    exists flushed, (current ++ [line]). split_and!; try done.
    + by rewrite render_snoc, <- Hcur.
    + by rewrite app_assoc.
    + by destruct current.
  - exists flushed, (current ++ [line]). split_and!; try done.
    + by rewrite render_snoc, <- Hcur.
    + by rewrite app_assoc.
    + by destruct current.
Qed.

Lemma fold_tracks lines : ∀ st flushed current,
  tracks st flushed current →
  ∃ flushed' current',
    tracks (fold_left (chunk_line maxChunkSize) lines st) flushed' current'
    ∧ concat flushed' ++ current' = (concat flushed ++ current) ++ lines
    ∧ (lines ≠ [] → current' ≠ []).
Proof.
  induction lines as [|line lines IH]; intros st flushed current Ht.
  - exists flushed, current. by rewrite app_nil_r.
  - destruct (chunk_line_tracks st flushed current line Ht)
      as (f1 & c1 & Ht1 & Heq1 & Hne1).
    destruct (IH _ _ _ Ht1) as (f2 & c2 & Ht2 & Heq2 & Hne2).
    exists f2, c2. split; [done|]. split.
    + by rewrite Heq2, Heq1, <- app_assoc.
    + intros _. destruct lines; [|by apply Hne2].
      cbn in Ht2. destruct Ht1 as (? & E1 & _), Ht2 as (? & E2 & _).
      rewrite E1 in E2. intros ->.
      apply (f_equal Str.truthy) in E2.
      by rewrite (render_truthy c1 Hne1) in E2.
Qed.

(** The chunks are the renderings of consecutive, non-empty groups of the
    lines of the text. *)
Lemma chunkText_groups text :
  ∃ groups,
    concat groups = Str.split Str.LF text
    ∧ Forall (λ g, g ≠ []) groups
    ∧ chunkText text maxChunkSize = render <$> groups.
Proof.
  unfold chunkText.
  destruct (fold_tracks (Str.split Str.LF text) (Chunker [] "") [] [])
    as (flushed & current & (Hc & Hcur & Hne) & Heq & Hlast).
  { by split_and!. }
  specialize (Hlast (StrFacts.split_nonempty _ _)).
  exists (flushed ++ [current]). split_and!.
  - rewrite concat_app. cbn. by rewrite app_nil_r.
  - apply Forall_app. split; [done|]. by constructor.
  - rewrite Hcur, (render_truthy _ Hlast), Hc, fmap_app. done.
Qed.

End Chunker.

(** C4. Concatenating the chunks, in order, gives the text followed by one
    line feed (the terminator the chunker puts after the last line; nothing
    else differs), and the chunks are consecutive groups of the lines of the
    text, in the order of the lines, each line in exactly one chunk. *)
Theorem chunkText_reconstructs_text (text : string) (maxChunkSize : nat) :
  Str.concat (chunkText text maxChunkSize) = text +:+ Str.NL
  ∧ ∃ groups : list (list string),
      concat groups = Str.split Str.LF text
      ∧ Forall (λ g, g ≠ []) groups
      ∧ chunkText text maxChunkSize = render <$> groups.
Proof.
  destruct (chunkText_groups maxChunkSize text) as (groups & Hlines & Hne & Hchunks).
  split; [|by exists groups].
  rewrite Hchunks, render_concat, Hlines.
  rewrite render_join by apply StrFacts.split_nonempty.
  unfold Str.NL. by rewrite StrFacts.join_split.
Qed.

Section ChunkBound.

Variable maxChunkSize : nat.
Variable all : list string.

Local Abbreviation ok := (within_bound_plus_one maxChunkSize all).
Local Abbreviation bounded := (bounded maxChunkSize all).

Lemma chunk_line_bounded st line :
  line ∈ all → bounded st → bounded (chunk_line maxChunkSize st line).
Proof.
  intros Hin [Hchunks Hcur]. unfold chunk_line, bounded.
  destruct (Nat.ltb_spec maxChunkSize (Str.length (currentChunk st +:+ line)))
    as [Hlong|Hshort].
  - assert (ok (line +:+ Str.NL)) as Hline.
    { destruct (decide (Str.length line ≤ maxChunkSize)) as [Hle|Hgt].
      - left. rewrite StrFacts.length_app. cbn. lia.
      - right. exists line. split_and!; [done|done|lia]. }
    destruct (Str.truthy (currentChunk st)) eqn:Ht; cbn [chunks currentChunk].
    + split; [|by right]. apply Forall_app. split; [done|].
      constructor; [|done]. destruct Hcur as [E|?]; [|done].
      by rewrite E in Ht.
    + apply StrFacts.not_truthy in Ht. rewrite Ht in *.
      split; [done|]. right. right. exists line.
      split_and!; [done|done|by rewrite StrFacts.app_nil_l in Hlong].
  - cbn [chunks currentChunk]. split; [done|]. right. left.
    rewrite <- StrFacts.app_assoc, StrFacts.length_app. cbn. lia.
Qed.

Lemma fold_bounded lines : ∀ st,
  lines ⊆ all → bounded st →
  bounded (fold_left (chunk_line maxChunkSize) lines st).
Proof.
  induction lines as [|line lines IH]; intros st Hsub Hst; [done|].
  cbn. apply IH; [set_solver|]. apply chunk_line_bounded; [set_solver|done].
Qed.

End ChunkBound.

(** The bound the loop does keep: a chunk is at most one character over
    [maxChunkSize], unless it is a single line that alone exceeds it. *)
Lemma chunkText_within_bound_plus_one (text : string) (maxChunkSize : nat) :
  Forall (within_bound_plus_one maxChunkSize (Str.split Str.LF text))
         (chunkText text maxChunkSize).
Proof.
  unfold chunkText.
  destruct (fold_bounded maxChunkSize (Str.split Str.LF text)
              (Str.split Str.LF text) (Chunker [] "")) as [Hchunks Hcur].
  { done. }
  { split; [constructor|by left]. }
  destruct (Str.truthy _) eqn:Ht; [|done].
  apply Forall_app. split; [done|]. constructor; [|done].
  destruct Hcur as [E|?]; [|done]. by rewrite E in Ht.
Qed.

(** C3. With the default bound of 12,000 characters, a text of one line of
    exactly 12,000 characters gives one chunk of 12,001 characters: the line
    does not exceed the bound, the chunk does. *)
Theorem chunkText_exceeds_maxChunkSize :
  let text := Str.replicate defaultMaxChunkSize "a" in
  Str.split Str.LF text = [text]
  ∧ Str.length text = defaultMaxChunkSize
  ∧ chunkText text defaultMaxChunkSize = [text +:+ Str.NL]
  ∧ Str.length (text +:+ Str.NL) = S defaultMaxChunkSize
  ∧ ¬ Forall (within_bound defaultMaxChunkSize (Str.split Str.LF text))
        (chunkText text defaultMaxChunkSize).
Proof.
  intros text.
  assert (Str.split Str.LF text = [text]) as Hsplit by (vm_compute; reflexivity).
  assert (Str.length text = defaultMaxChunkSize) as Hlen by (vm_compute; reflexivity).
  assert (chunkText text defaultMaxChunkSize = [text +:+ Str.NL]) as Hchunk
    by (vm_compute; reflexivity).
  assert (Str.length (text +:+ Str.NL) = S defaultMaxChunkSize) as Hlen'
    by (rewrite StrFacts.length_app, Hlen; cbn; lia).
  split; [exact Hsplit|]. split; [exact Hlen|].
  split; [exact Hchunk|]. split; [exact Hlen'|].
  rewrite Hchunk, Hsplit. intros Hall. apply Forall_cons_1 in Hall as [Hb _].
  destruct Hb as [Hle|(line & Hin & _ & Hgt)].
  - rewrite Hlen' in Hle. lia.
  - apply list_elem_of_singleton in Hin as ->. rewrite Hlen in Hgt. lia.
Qed.

(** The same with two short lines and a bound of 5: the chunk holds both
    lines and has 6 characters. *)
Example chunkText_two_lines_over :
  chunkText ("ab" +:+ Str.NL +:+ "cd") 5 = ["ab" +:+ Str.NL +:+ "cd" +:+ Str.NL]
  ∧ Str.length ("ab" +:+ Str.NL +:+ "cd" +:+ Str.NL) = 6.
Proof. split; reflexivity. Qed.

(** ** Deduplication *)

Module Dedup.

Lemma same_key_refl x : same_key x x = true.
Proof. unfold same_key. by rewrite bool_decide_eq_true. Qed.

Lemma same_key_true x y : same_key x y = true ↔ dedupKey x = dedupKey y.
Proof. unfold same_key. by rewrite bool_decide_eq_true. Qed.

Lemma same_key_sym x y : same_key x y = same_key y x.
Proof. unfold same_key. apply bool_decide_ext. split; congruence. Qed.

Lemma same_key_trans x y z :
  same_key x y = true → same_key y z = same_key x z.
Proof.
  unfold same_key. rewrite bool_decide_eq_true. intros E.
  apply bool_decide_ext. rewrite E. done.
Qed.

Lemma existsb_snoc (p : jsval → bool) l x :
  existsb p (l ++ [x]) = existsb p l || p x.
Proof. rewrite existsb_app. cbn. by rewrite orb_false_r. Qed.

Lemma existsb_same_key x y l :
  same_key x y = true → existsb (same_key x) l = existsb (same_key y) l.
Proof.
  intros E. induction l as [|z l IH]; [done|]. cbn.
  by rewrite IH, (same_key_trans x y z E).
Qed.

(** [keep_first_seen] looks at the earlier records through their keys
    only. *)
Lemma keep_first_seen_ext l : ∀ E E',
  (∀ y, existsb (same_key y) E = existsb (same_key y) E') →
  keep_first_seen E l = keep_first_seen E' l.
Proof.
  induction l as [|x l IH]; intros E E' Hext; [done|].
  cbn. rewrite (Hext x).
  rewrite (IH (E ++ [x]) (E' ++ [x])); [done|].
  intros y. by rewrite !existsb_snoc, Hext.
Qed.

Lemma keep_first_seen_idem l : ∀ E,
  keep_first_seen E (keep_first_seen E l) = keep_first_seen E l.
Proof.
  induction l as [|x l IH]; intros E; [done|].
  cbn. destruct (existsb (same_key x) E) eqn:Hx.
  - rewrite <- (IH (E ++ [x])) at 2.
    apply keep_first_seen_ext. intros y. rewrite existsb_snoc.
    destruct (same_key y x) eqn:Hyx; [|by rewrite orb_false_r].
    by rewrite orb_true_r, (existsb_same_key y x E Hyx).
  - cbn. by rewrite Hx, IH.
Qed.

(** Among the kept records, those with the key of [x] are: none when the
    key was seen earlier, otherwise the first record of the list with that
    key. *)
Lemma keep_first_seen_filter x l : ∀ E,
  List.filter (same_key x) (keep_first_seen E l)
  = if existsb (same_key x) E then []
    else match List.find (same_key x) l with Some first => [first] | None => [] end.
Proof.
  induction l as [|r l IH]; intros E.
  - cbn. by destruct (existsb _ E).
  - cbn [keep_first_seen List.find].
    destruct (existsb (same_key r) E) eqn:Hr.
    + rewrite IH, existsb_snoc.
      destruct (same_key x r) eqn:Hxr.
      * by rewrite orb_true_r, (existsb_same_key x r E Hxr), Hr.
      * by rewrite orb_false_r.
    + cbn [List.filter]. rewrite IH, existsb_snoc.
      destruct (same_key x r) eqn:Hxr.
      * by rewrite orb_true_r, (existsb_same_key x r E Hxr), Hr.
      * by rewrite orb_false_r.
Qed.

(** The loop of the code computes [keep_first_seen] when its set [seen]
    holds the keys of the records observed so far. *)
Lemma dedup_loop_spec l : ∀ earlier seen uniqueItems,
  Forall keyable l →
  (∀ y key, dedupKey y = Returned key → key ∈ seen ↔ existsb (same_key y) earlier = true) →
  dedup_loop l seen uniqueItems
  = Returned (uniqueItems ++ keep_first_seen earlier l).
Proof.
  induction l as [|x l IH]; intros earlier seen acc Hl Hseen.
  - cbn. by rewrite app_nil_r.
  - apply Forall_cons_1 in Hl as [[key Hkey] Hl].
    cbn [dedup_loop keep_first_seen]. rewrite Hkey. cbn.
    assert (∀ s : gset string, (∀ k, k ∈ s ↔ k = key ∨ k ∈ seen) →
      ∀ y k, dedupKey y = Returned k →
        k ∈ s ↔ existsb (same_key y) (earlier ++ [x]) = true) as Hnext.
    { intros s Hs y k Hy. rewrite Hs, existsb_snoc, orb_true_iff, (Hseen y k Hy).
      rewrite same_key_true, Hy, Hkey.
      split.
      - intros [->|?]; [by right|by left].
      - intros [?|?]; [by right|left; congruence]. }
    destruct (decide (key ∈ seen)) as [Hin|Hnin].
    + apply (Hseen x key Hkey) in Hin. rewrite Hin.
      apply IH; [done|]. apply Hnext.
      intros k. split; [tauto|]. intros [->|?]; [|done].
      by apply (Hseen x key Hkey).
    + assert (existsb (same_key x) earlier = false) as ->.
      { apply not_true_is_false. by rewrite <- (Hseen x key Hkey). }
      rewrite (IH (earlier ++ [x]) _ (acc ++ [x]) Hl).
      * by rewrite <- app_assoc.
      * apply Hnext. intros k. by rewrite elem_of_union, elem_of_singleton.
Qed.

Lemma deduplicate_spec l :
  Forall keyable l → deduplicate l = Returned (first_occurrences l).
Proof.
  intros Hl. unfold deduplicate, first_occurrences.
  rewrite (dedup_loop_spec l [] ∅ [] Hl); [done|].
  intros y key _. cbn. set_solver.
Qed.

Lemma keep_first_seen_sublist l : ∀ E, sublist (keep_first_seen E l) l.
Proof.
  induction l as [|x l IH]; intros E; [done|].
  cbn. destruct (existsb _ E); [apply sublist_cons|apply sublist_skip]; apply IH.
Qed.

Lemma first_occurrences_keyable l :
  Forall keyable l → Forall keyable (first_occurrences l).
Proof.
  intros Hl. apply Forall_forall. intros x Hx.
  eapply (proj1 (Forall_forall _ _) Hl), elem_of_sublist;
    [done|apply keep_first_seen_sublist].
Qed.

End Dedup.

Lemma primitive_ToString v : primitive v = true → ∃ s, Js.ToString v = Returned s.
Proof. destruct v; cbn; intros; (done || eauto). Qed.

Lemma primitive_or v : primitive v = true → primitive (Js.or v (VNum 0)) = true.
Proof. unfold Js.or. by destruct (Js.truthy v). Qed.

(** The records the extraction schema describes have a key. *)
Lemma flat_record_keyable item : flat_record item → keyable item.
Proof.
  intros (props & -> & Hc & Ht & Ha). unfold keyable, dedupKey. cbn [Js.get].
  destruct (primitive_ToString _ Hc) as [c Ec].
  destruct (primitive_ToString _ Ht) as [t Et].
  destruct (primitive_ToString _ (primitive_or _ Ha)) as [a Ea].
  cbn in Ea |- *. rewrite Ec. cbn. rewrite Et. cbn. rewrite Ea. cbn. eauto.
Qed.

(** A record with a key can be read: it is neither [null] nor
    [undefined]. *)
Lemma keyable_get item name : keyable item → ∃ v, Js.get item name = Returned v.
Proof. intros [key Hkey]. destruct item; cbn in *; (done || eauto). Qed.

(** C5. On records whose key can be computed (no [null] among them), the
    deduplication returns the first occurrences of the list in the order of
    the list, and applied to that result it returns it unchanged. *)
Theorem deduplicate_idempotent_first_seen (records : list jsval) :
  Forall keyable records →
  ∃ kept,
    deduplicate records = Returned kept
    ∧ deduplicate kept = Returned kept
    ∧ kept = first_occurrences records
    ∧ sublist kept records.
Proof.
  intros Hrecords. exists (first_occurrences records). split_and!.
  - by apply Dedup.deduplicate_spec.
  - rewrite Dedup.deduplicate_spec by by apply Dedup.first_occurrences_keyable.
    f_equal. apply Dedup.keep_first_seen_idem.
  - done.
  - apply Dedup.keep_first_seen_sublist.
Qed.

Lemma deduplicate_idempotent_first_seen_witness :
  Forall keyable [acme; visa; acme_dup; visa; acme]
  ∧ ∃ kept,
      deduplicate [acme; visa; acme_dup; visa; acme] = Returned kept
      ∧ deduplicate kept = Returned kept
      ∧ kept = first_occurrences [acme; visa; acme_dup; visa; acme]
      ∧ sublist kept [acme; visa; acme_dup; visa; acme].
Proof.
  assert (Forall keyable [acme; visa; acme_dup; visa; acme]) as H.
  { repeat constructor; eexists; vm_compute; reflexivity. }
  split; [exact H|]. exact (deduplicate_idempotent_first_seen _ H).
Defined.

(** The key is the texts of the three fields, joined by hyphens. *)
Lemma dedupKey_fields item :
  dedupKey item
  = fields ← key_fields item;
    c ← Js.ToString fields.1.1;
    t ← Js.ToString fields.1.2;
    a ← Js.ToString fields.2;
    mret (c +:+ "-" +:+ t +:+ "-" +:+ a).
Proof.
  unfold dedupKey, key_fields. by destruct item.
Qed.

(** C9. The key of a record is the texts of its creditor, its type and its
    amount, an absent (or otherwise falsy) amount being read as 0, joined by
    hyphens, so every record with the same three fields has the same key,
    whatever its other fields. For every record of the list, the kept records
    that share its key are exactly one record: the first record of the list
    with that key. *)
Theorem dedup_key_collapse (records : list jsval) (x : jsval) :
  Forall keyable records → x ∈ records →
  ∃ kept first creditor type amount c t a,
    key_fields x = Returned (creditor, type, amount)
    ∧ Js.ToString creditor = Returned c
    ∧ Js.ToString type = Returned t
    ∧ Js.ToString amount = Returned a
    ∧ dedupKey x = Returned (c +:+ "-" +:+ t +:+ "-" +:+ a)
    ∧ (∀ y, key_fields y = key_fields x → same_key x y = true)
    ∧ deduplicate records = Returned kept
    ∧ List.find (same_key x) records = Some first
    ∧ List.filter (same_key x) kept = [first].
Proof.
  intros Hrecords Hx.
  pose proof (proj1 (Forall_forall _ _) Hrecords x Hx) as [key Hkey].
  pose proof (dedupKey_fields x) as Hfields. rewrite Hkey in Hfields.
  destruct (key_fields x) as [[[creditor type] amount]|] eqn:Hx3; [|done].
  cbn in Hfields.
  destruct (Js.ToString creditor) as [c|] eqn:Hc; [|done]. cbn in Hfields.
  destruct (Js.ToString type) as [t|] eqn:Ht; [|done]. cbn in Hfields.
  destruct (Js.ToString amount) as [a|] eqn:Ha; [|done]. cbn in Hfields.
  unfold mret, outcome_ret in Hfields. injection Hfields as ->.
  destruct (List.find (same_key x) records) as [first|] eqn:Hfind.
  - exists (first_occurrences records), first, creditor, type, amount, c, t, a.
    split; [done|]. split; [done|]. split; [done|]. split; [done|].
    split; [done|]. split; [|split; [|split]].
    + intros y Hy. apply Dedup.same_key_true.
      by rewrite (dedupKey_fields y), Hy, <- Hx3, <- dedupKey_fields.
    + by apply Dedup.deduplicate_spec.
    + done.
    + unfold first_occurrences. rewrite Dedup.keep_first_seen_filter.
      cbn. by rewrite Hfind.
  - apply list_elem_of_In in Hx.
    pose proof (find_none _ _ Hfind x Hx) as Hno.
    by rewrite Dedup.same_key_refl in Hno.
Qed.

Lemma dedup_key_collapse_witness :
  (deduplicate [visa; acme; acme_dup] = Returned [visa; acme]
   ∧ dedupKey acme_dup = Returned "Acme-COLLECTION-5000"
   ∧ same_key acme_dup acme = true
   ∧ List.find (same_key acme_dup) [visa; acme; acme_dup] = Some acme
   ∧ List.filter (same_key acme_dup) [visa; acme] = [acme])
  ∧ (deduplicate [acme_no_amount; visa; acme_zero_amount]
     = Returned [acme_no_amount; visa]
     ∧ dedupKey acme_zero_amount = Returned "Acme-COLLECTION-0"
     ∧ same_key acme_zero_amount acme_no_amount = true
     ∧ List.find (same_key acme_zero_amount) [acme_no_amount; visa; acme_zero_amount]
       = Some acme_no_amount
     ∧ List.filter (same_key acme_zero_amount) [acme_no_amount; visa]
       = [acme_no_amount]).
Proof.
  split.
  - assert (Forall keyable [visa; acme; acme_dup]) as H
      by (repeat constructor; eexists; vm_compute; reflexivity).
    assert (acme_dup ∈ [visa; acme; acme_dup]) as Hin
      by (do 2 apply list_elem_of_further; apply list_elem_of_here).
    destruct (dedup_key_collapse _ _ H Hin)
      as (kept & first & cr & ty & am & c & t & a
          & Hf & Hc & Ht & Ha & Hkey & Hsame & Hd & Hfind & Hfilter).
    assert (deduplicate [visa; acme; acme_dup] = Returned [visa; acme]) as Ed
      by (vm_compute; reflexivity).
    assert (List.find (same_key acme_dup) [visa; acme; acme_dup] = Some acme) as Ef
      by (vm_compute; reflexivity).
    rewrite Ed in Hd. injection Hd as <-.
    rewrite Ef in Hfind. injection Hfind as <-.
    cbn in Hf. injection Hf as <- <- <-.
    cbn in Hc, Ht, Ha. injection Hc as <-. injection Ht as <-. injection Ha as <-.
    split_and!; [exact Ed|exact Hkey|by apply Hsame|exact Ef|exact Hfilter].
  - assert (Forall keyable [acme_no_amount; visa; acme_zero_amount]) as H
      by (repeat constructor; eexists; vm_compute; reflexivity).
    assert (acme_zero_amount ∈ [acme_no_amount; visa; acme_zero_amount]) as Hin
      by (do 2 apply list_elem_of_further; apply list_elem_of_here).
    destruct (dedup_key_collapse _ _ H Hin)
      as (kept & first & cr & ty & am & c & t & a
          & Hf & Hc & Ht & Ha & Hkey & Hsame & Hd & Hfind & Hfilter).
    assert (deduplicate [acme_no_amount; visa; acme_zero_amount]
            = Returned [acme_no_amount; visa]) as Ed
      by (vm_compute; reflexivity).
    assert (List.find (same_key acme_zero_amount)
              [acme_no_amount; visa; acme_zero_amount] = Some acme_no_amount) as Ef
      by (vm_compute; reflexivity).
    rewrite Ed in Hd. injection Hd as <-.
    rewrite Ef in Hfind. injection Hfind as <-.
    cbn in Hf. injection Hf as <- <- <-.
    cbn in Hc, Ht, Ha. injection Hc as <-. injection Ht as <-. injection Ha as <-.
    split_and!; [exact Ed|exact Hkey|by apply Hsame|exact Ef|exact Hfilter].
Defined.

(** The example of the specification: the two Acme records collapse to the
    first; the notes of the second play no part. *)
Example acme_records_collapse :
  dedupKey acme = Returned "Acme-COLLECTION-5000"
  ∧ dedupKey acme_dup = Returned "Acme-COLLECTION-5000"
  ∧ deduplicate [acme; acme_dup] = Returned [acme].
Proof. split_and!; vm_compute; reflexivity. Qed.

(** An absent, a [null] and a zero amount give the same key. *)
Example absent_amount_is_zero :
  dedupKey acme_no_amount = Returned "Acme-COLLECTION-0"
  ∧ dedupKey acme_null_amount = Returned "Acme-COLLECTION-0"
  ∧ dedupKey acme_zero_amount = Returned "Acme-COLLECTION-0"
  ∧ deduplicate [acme_no_amount; acme_null_amount; acme_zero_amount]
    = Returned [acme_no_amount].
Proof. split_and!; vm_compute; reflexivity. Qed.

(** A [null] among the records makes the deduplication throw. *)
Example deduplicate_null :
  deduplicate [acme; VNull]
  = Threw "Cannot read properties of null (reading 'creditor')".
Proof. vm_compute; reflexivity. Qed.

(** ** Effects of the stages *)

Module Effects.

Lemma bind_run {A B} (m : M A) (k : A → M B) σ :
  (m ≫= k) σ
  = match m σ with
    | (Returned a, σ') => k a σ'
    | (Threw e, σ') => (Threw e, σ')
    end.
Proof. done. Qed.

Lemma try_catch_run {A} (body : M A) (handler : string → M A) σ :
  try_catch body handler σ
  = match body σ with
    | (Returned a, σ') => (Returned a, σ')
    | (Threw e, σ') => handler e σ'
    end.
Proof. done. Qed.

Lemma add_ocr_0 σ : add_ocr 0 σ = σ.
Proof. by destruct σ. Qed.

Lemma add_ocr_add n m σ : add_ocr n (add_ocr m σ) = add_ocr (n + m) σ.
Proof. unfold add_ocr. cbn. f_equal. lia. Qed.

Lemma add_items_nil σ : add_items [] σ = σ.
Proof. destruct σ. unfold add_items. cbn. by rewrite app_nil_r. Qed.

Lemma add_items_app rows rows' σ :
  add_items rows' (add_items rows σ) = add_items (rows ++ rows') σ.
Proof. unfold add_items. cbn. by rewrite app_assoc. Qed.

(** One entry into the OCR fallback: the result is that of the run the
    world has for this entry. *)
Lemma extractTextWithOCR_run w pdfBuffer σ :
  extractTextWithOCR w pdfBuffer σ
  = (ocr_result (ocr w (ocr_invocations σ) pdfBuffer), add_ocr 1 σ).
Proof.
  unfold extractTextWithOCR, ocr_result, enter_ocr, add_ocr.
  rewrite bind_run. cbn.
  destruct (ocr w (ocr_invocations σ) pdfBuffer) as [cw fb cv rc tm te]. cbn.
  unfold mbind, M_bind, try_catch, call, throw, mret, M_ret.
  destruct cw as [[]|]; [|done].
  destruct fb as [[]|]; [destruct tm as [[]|]|]; destruct te as [[]|]; done.
Qed.

(** [extractPdfText] changes nothing but the count of OCR entries. *)
Lemma extractPdfText_frame w pdfBuffer σ :
  ∃ n, snd (extractPdfText w pdfBuffer σ) = add_ocr n σ.
Proof.
  unfold extractPdfText. rewrite try_catch_run, bind_run. unfold call.
  destruct (pdfParse w pdfBuffer) as [text|e].
  - destruct (has_text_layer text).
    + exists 0. by rewrite add_ocr_0.
    + rewrite extractTextWithOCR_run.
      destruct (ocr_result _); [by exists 1|].
      rewrite extractTextWithOCR_run, add_ocr_add. by exists 2.
  - rewrite extractTextWithOCR_run. by exists 1.
Qed.

Lemma row_of_to_send profileId item row :
  row_of profileId item = Returned row → to_send row.
Proof.
  unfold row_of. destruct item; cbn; intros [= <-]; done.
Qed.

Lemma saved_rows_to_send w profileId creditItems : ∀ i,
  Forall to_send (saved_rows w profileId i creditItems).
Proof.
  induction creditItems as [|item rest IH]; intros i; [constructor|].
  cbn. apply Forall_app. split; [|apply IH].
  destruct (row_of profileId item) as [row|] eqn:Hrow; [|constructor].
  destruct (upsert w i row); constructor; [|constructor].
  by eapply row_of_to_send.
Qed.

(** The loop that saves the items always returns, and adds to the item
    table the rows the table accepted. *)
Lemma for_of_save_run w profileId creditItems : ∀ i σ,
  for_of i creditItems (λ i item,
    try_catch
      (row ← call (row_of profileId item);
       upsert_item w i row)
      (λ saveError, mret ())) σ
  = (Returned (), add_items (saved_rows w profileId i creditItems) σ).
Proof.
  induction creditItems as [|item rest IH]; intros i σ.
  - cbn. by rewrite add_items_nil.
  - cbn [for_of saved_rows]. rewrite bind_run, try_catch_run, bind_run.
    unfold call, upsert_item.
    destruct (row_of profileId item) as [row|].
    + destruct (upsert w i row) as [[]|].
      * rewrite IH. unfold add_items. cbn. by rewrite <- app_assoc.
      * unfold mret, M_ret. rewrite IH. done.
    + unfold mret, M_ret. rewrite IH. done.
Qed.

Lemma save_items_run w profileId creditItems σ :
  save_items w profileId creditItems σ
  = (Returned (), add_items (saved_rows w profileId 0 creditItems) σ).
Proof. apply for_of_save_run. Qed.

End Effects.

(** ** The job handler *)

Module Handler.

(** The [try] block of the handler, stage by stage. *)
Lemma run_job_unfold w req σ :
  run_job w req σ
  = let σ1 := after_processing w req σ in
    match download w (filePath req) with
    | Threw e => (Threw e, σ1)
    | Returned reply =>
        match error reply with
        | Some message => (Threw ("Failed to download file: " +:+ message), σ1)
        | None =>
            match data reply with
            | None => (Threw "Cannot read properties of null (reading 'arrayBuffer')", σ1)
            | Some pdfBuffer =>
                match extractPdfText w pdfBuffer σ1 with
                | (Threw e, σ2) => (Threw e, σ2)
                | (Returned text, σ2) =>
                    if negb (Str.truthy text) || (Str.length text <? minTextLength)
                    then (Threw "Could not extract sufficient text from PDF", σ2)
                    else
                      match deduplicate
                              (collect w 0 (chunkText text defaultMaxChunkSize) []) with
                      | Threw e => (Threw e, σ2)
                      | Returned kept =>
                          let σ3 := add_items (saved_rows w (profileId req) 0 kept) σ2 in
                          match filter_negative kept with
                          | Threw e => (Threw e, σ3)
                          | Returned negativeItems =>
                              match project_negative negativeItems with
                              | Threw e => (Threw e, σ3)
                              | Returned accounts =>
                                  (Returned (),
                                   after_terminal req completed
                                     (mark_completed w
                                        (Summary (length kept) (length negativeItems)
                                                 true accounts))
                                     (Success (jobId req) (length kept)
                                              (length negativeItems))
                                     σ3)
                              end
                          end
                      end
                end
            end
        end
    end.
Proof.
  unfold run_job. rewrite Effects.bind_run. cbn [update_job].
  fold (after_processing w req σ). cbv zeta.
  rewrite Effects.bind_run. unfold call at 1.
  destruct (download w (filePath req)) as [reply|e]; [|done].
  rewrite Effects.bind_run.
  destruct (error reply) as [message|]; [done|]. cbn [mret M_ret].
  rewrite Effects.bind_run.
  destruct (data reply) as [pdfBuffer|]; [|done]. cbn [mret M_ret].
  rewrite Effects.bind_run.
  destruct (extractPdfText w pdfBuffer (after_processing w req σ)) as [[text|e] σ2];
    [|done].
  rewrite Effects.bind_run.
  destruct (negb (Str.truthy text) || (Str.length text <? minTextLength)); [done|].
  cbn [mret M_ret]. rewrite Effects.bind_run.
  unfold processChunksWithOpenAI, call at 1.
  destruct (deduplicate _) as [kept|e]; [|done].
  rewrite Effects.bind_run, Effects.save_items_run.
  rewrite Effects.bind_run. unfold call at 1.
  destruct (filter_negative kept) as [negativeItems|e]; [|done].
  rewrite Effects.bind_run. unfold call at 1.
  destruct (project_negative negativeItems) as [accounts|e]; [|done].
  rewrite Effects.bind_run. done.
Qed.

(** However the [try] block ends, it has marked the job [processing], and
    otherwise only counted OCR entries and added rows to the item table;
    when it returns, it has also marked the job [completed] and sent the
    success response. *)
Lemma run_job_cases w req σ :
  ∃ n rows,
    Forall to_send rows
    ∧ let σ3 := add_items rows (add_ocr n (after_processing w req σ)) in
      (∃ e, run_job w req σ = (Threw e, σ3))
      ∨ (∃ result total negative,
           run_job w req σ
           = (Returned (),
              after_terminal req completed (mark_completed w result)
                (Success (jobId req) total negative) σ3)).
Proof.
  rewrite run_job_unfold. cbv zeta.
  set (σ1 := after_processing w req σ).
  assert (∀ e, ∃ n rows, Forall to_send rows
    ∧ ((∃ e', (Threw e, σ1) = (@Threw unit e', add_items rows (add_ocr n σ1)))
       ∨ (∃ result total negative,
            (Threw e, σ1)
            = (Returned (),
               after_terminal req completed (mark_completed w result)
                 (Success (jobId req) total negative)
                 (add_items rows (add_ocr n σ1))))))
    as Hearly.
  { intros e. exists 0, []. split; [constructor|]. left. exists e.
    by rewrite Effects.add_items_nil, Effects.add_ocr_0. }
  destruct (download w (filePath req)) as [reply|e]; [|apply Hearly].
  destruct (error reply) as [message|]; [apply Hearly|].
  destruct (data reply) as [pdfBuffer|]; [|apply Hearly].
  destruct (Effects.extractPdfText_frame w pdfBuffer σ1) as [n Hn].
  destruct (extractPdfText w pdfBuffer σ1) as [[text|e] σ2]; cbn in Hn; subst σ2.
  2:{ exists n, []. split; [constructor|]. left. exists e.
      by rewrite Effects.add_items_nil. }
  destruct (negb _ || _).
  { exists n, []. split; [constructor|]. left. eexists.
    by rewrite Effects.add_items_nil. }
  destruct (deduplicate _) as [kept|e].
  2:{ exists n, []. split; [constructor|]. left. exists e.
      by rewrite Effects.add_items_nil. }
  exists n, (saved_rows w (profileId req) 0 kept).
  split; [apply Effects.saved_rows_to_send|].
  destruct (filter_negative kept) as [negativeItems|e]; [|left; by exists e].
  destruct (project_negative negativeItems) as [accounts|e]; [|left; by exists e].
  right. by eexists _, _, _.
Qed.

(** The handler always returns, having written [processing] and then one
    terminal status. *)
Lemma process_cases w req σ :
  ∃ n rows final columns r,
    Forall to_send rows
    ∧ (final = completed ∨ final = failed)
    ∧ (∀ j, status (columns j) = final)
    ∧ process w req σ
      = (Returned (),
         after_terminal req final columns r
           (add_items rows (add_ocr n (after_processing w req σ)))).
Proof.
  destruct (run_job_cases w req σ) as (n & rows & Hrows & Hrun).
  unfold process. rewrite Effects.try_catch_run.
  destruct Hrun as [[e ->]|(result & total & negative & ->)].
  - exists n, rows, failed, (mark_failed w e), (Failure e).
    split_and!; [done|by right|done|done].
  - exists n, rows, completed, (mark_completed w result),
      (Success (jobId req) total negative).
    split_and!; [done|by left|done|done].
Qed.

End Handler.

(** C1. Every invocation of the handler returns, and the job-status writes
    it issued are [processing] followed by exactly one of [completed] and
    [failed]; the row of the job, when the table has one, ends with that
    terminal status. *)
Theorem process_ends_in_one_terminal_status (w : world) (req : request) (σ : state) :
  ∃ final,
    (final = completed ∨ final = failed)
    ∧ fst (process w req σ) = Returned ()
    ∧ status_writes (snd (process w req σ))
      = status_writes σ ++ [(jobId req, processing); (jobId req, final)]
    ∧ status <$> pdf_processing_jobs (snd (process w req σ)) !! jobId req
      = (λ _, final) <$> pdf_processing_jobs σ !! jobId req.
Proof.
  destruct (Handler.process_cases w req σ)
    as (n & rows & final & columns & r & _ & Hfinal & Hcolumns & ->).
  exists final. split_and!; [done|done|..]; cbn.
  - by rewrite <- app_assoc.
  - rewrite !lookup_alter_eq.
    destruct (pdf_processing_jobs σ !! jobId req); cbn; [|done].
    by rewrite Hcolumns.
Qed.

(** C10. The rows an invocation adds to the item table all have the status
    ['TO_SEND'] and the confidence [0.8], whatever the language service
    answered. *)
Theorem saved_items_are_to_send (w : world) (req : request) (σ : state) :
  ∃ rows,
    credit_items (snd (process w req σ)) = credit_items σ ++ rows
    ∧ Forall (λ row, item_status row = "TO_SEND" ∧ confidence row = 0.8%Q) rows.
Proof.
  destruct (Handler.process_cases w req σ)
    as (n & rows & final & columns & r & Hrows & _ & _ & ->).
  by exists rows.
Qed.

(** ** Text extraction *)

Module Extraction.

Lemma has_text_layer_long text :
  minTextLength < Str.length (Str.trim text) → has_text_layer text = true.
Proof.
  intros Hlong. unfold has_text_layer. apply andb_true_intro. split.
  - apply StrFacts.truthy_length. pose proof (StrFacts.trim_length text). lia.
  - by apply Nat.ltb_lt.
Qed.

Lemma has_text_layer_short text :
  Str.length (Str.trim text) ≤ minTextLength → has_text_layer text = false.
Proof.
  intros Hshort. unfold has_text_layer. apply andb_false_intro2.
  by apply Nat.ltb_ge.
Qed.

(** A page that is read makes the text non-empty; the text stays empty
    only over blank pages. *)
Lemma ocr_page_empty run allText i :
  ocr_page run allText i = "" → allText = "" ∧ page_blank run i.
Proof.
  unfold ocr_page, page_blank.
  destruct (convert run i) as [[]|e] eqn:Hc.
  - destruct (recognize run i) as [text|e'] eqn:Hr.
    + intros Hempty. apply (f_equal Str.length) in Hempty.
      rewrite !StrFacts.length_app in Hempty. cbn in Hempty. lia.
    + intros ->. split; [done|]. right. by exists e'.
  - intros ->. split; [done|]. by left.
  - intros ->. split; [done|]. by left.
Qed.

Lemma fold_ocr_page_empty run pages : ∀ allText,
  fold_left (ocr_page run) pages allText = "" →
  allText = "" ∧ ∀ i, i ∈ pages → page_blank run i.
Proof.
  induction pages as [|p pages IH]; intros allText Hempty.
  - split; [done|]. intros i Hi. by apply elem_of_nil in Hi.
  - cbn in Hempty. apply IH in Hempty as [Hpage Hrest].
    apply ocr_page_empty in Hpage as [-> Hp].
    split; [done|]. intros i [->|Hi]%elem_of_cons; [done|by apply Hrest].
Qed.

Lemma ocr_pages_empty run :
  ocr_pages run = "" → ∀ i, 1 ≤ i ≤ pageCount → page_blank run i.
Proof.
  intros Hempty i Hi.
  apply fold_ocr_page_empty in Hempty as [_ Hblank].
  apply Hblank, list_elem_of_In, in_seq. lia.
Qed.

(** What an OCR entry returns is the text of its pages. *)
Lemma ocr_result_returned run text :
  ocr_result run = Returned text → text = ocr_pages run.
Proof.
  unfold ocr_result.
  destruct (createWorker run); [|done].
  destruct (fromBuffer run); [destruct (terminate run)|];
    destruct (terminate_on_error run); congruence.
Qed.

(** [extractPdfText], case by case. *)
Lemma extractPdfText_unfold w pdfBuffer σ :
  extractPdfText w pdfBuffer σ
  = let k := ocr_invocations σ in
    match pdfParse w pdfBuffer with
    | Returned text =>
        if has_text_layer text then (Returned text, σ)
        else
          match ocr_result (ocr w k pdfBuffer) with
          | Returned scanned => (Returned scanned, add_ocr 1 σ)
          | Threw _ => (ocr_result (ocr w (S k) pdfBuffer), add_ocr 2 σ)
          end
    | Threw _ => (ocr_result (ocr w k pdfBuffer), add_ocr 1 σ)
    end.
Proof.
  unfold extractPdfText.
  rewrite Effects.try_catch_run, Effects.bind_run. unfold call.
  destruct (pdfParse w pdfBuffer) as [text|e].
  - destruct (has_text_layer text); [done|].
    rewrite Effects.extractTextWithOCR_run.
    destruct (ocr_result _); [done|].
    by rewrite Effects.extractTextWithOCR_run, Effects.add_ocr_add.
  - by rewrite Effects.extractTextWithOCR_run.
Qed.

End Extraction.

(** C2, as the code has it. When the native extraction returns a text of
    more than 100 characters once trimmed, [extractPdfText] returns that text
    and the state is untouched: the OCR fallback is not entered. When the
    native extraction throws, or returns a text of fewer than 100 characters
    once trimmed, the fallback is entered and [extractPdfText] ends as its
    last entry does. *)
Theorem extractPdfText_fallback (w : world) (pdfBuffer : buffer) (σ : state) :
  (∀ text,
     pdfParse w pdfBuffer = Returned text →
     100 < Str.length (Str.trim text) →
     extractPdfText w pdfBuffer σ = (Returned text, σ))
  ∧ ((∃ e, pdfParse w pdfBuffer = Threw e)
     ∨ (∃ text, pdfParse w pdfBuffer = Returned text
                ∧ Str.length (Str.trim text) < 100) →
     ocr_invocations σ < ocr_invocations (snd (extractPdfText w pdfBuffer σ))
     ∧ ∃ σ', ocr_invocations σ ≤ ocr_invocations σ'
             ∧ extractPdfText w pdfBuffer σ = extractTextWithOCR w pdfBuffer σ').
Proof.
  split.
  - intros text Hparse Hlong.
    rewrite Extraction.extractPdfText_unfold, Hparse. cbv zeta.
    by rewrite Extraction.has_text_layer_long.
  - intros Hnative. rewrite Extraction.extractPdfText_unfold. cbv zeta.
    assert (extractTextWithOCR w pdfBuffer σ
            = (ocr_result (ocr w (ocr_invocations σ) pdfBuffer), add_ocr 1 σ)) as H1
      by apply Effects.extractTextWithOCR_run.
    assert (extractTextWithOCR w pdfBuffer (add_ocr 1 σ)
            = (ocr_result (ocr w (S (ocr_invocations σ)) pdfBuffer), add_ocr 2 σ)) as H2
      by (by rewrite Effects.extractTextWithOCR_run, Effects.add_ocr_add).
    destruct Hnative as [[e ->]|(text & -> & Hshort)].
    + split; [cbn; lia|]. exists σ. by rewrite H1.
    + rewrite Extraction.has_text_layer_short by (unfold minTextLength; lia).
      destruct (ocr_result (ocr w (ocr_invocations σ) pdfBuffer)) as [scanned|e] eqn:Hocr.
      * split; [cbn; lia|]. exists σ. by rewrite H1, ?Hocr.
      * split; [cbn; lia|]. exists (add_ocr 1 σ). split; [cbn; lia|]. by rewrite H2.
Qed.

Lemma extractPdfText_fallback_witness :
  extractPdfText typed [] initial = (Returned (Str.replicate 120 "a"), initial)
  ∧ ocr_invocations initial < ocr_invocations (snd (extractPdfText padded [] initial))
  ∧ ∃ σ', ocr_invocations initial ≤ ocr_invocations σ'
          ∧ extractPdfText padded [] initial = extractTextWithOCR padded [] σ'.
Proof.
  split.
  - apply (proj1 (extractPdfText_fallback typed [] initial)).
    + reflexivity.
    + vm_compute. lia.
  - apply (proj2 (extractPdfText_fallback padded [] initial)).
    right. exists padded_text. split.
    + reflexivity.
    + vm_compute. lia.
Defined.

(** C2, as stated, fails: a native text of 150 characters, 50 letters and
    100 trailing spaces, is not returned; the OCR fallback is entered and its
    text is returned. *)
Lemma native_text_of_150_characters_goes_to_ocr :
  pdfParse padded [] = Returned padded_text
  ∧ 100 ≤ Str.length padded_text
  ∧ fst (extractPdfText padded [] initial) ≠ Returned padded_text
  ∧ fst (extractPdfText padded [] initial) = ocr_result (ocr padded 0 [])
  ∧ ocr_invocations (snd (extractPdfText padded [] initial)) = 1.
Proof.
  split_and!.
  - reflexivity.
  - vm_compute. lia.
  - vm_compute. discriminate.
  - vm_compute. reflexivity.
  - vm_compute. reflexivity.
Qed.

(** A native text of exactly 100 letters goes to the OCR fallback too,
    while the handler takes a text of 100 characters as sufficient. *)
Example native_text_of_100_letters_goes_to_ocr :
  has_text_layer (Str.replicate 100 "a") = false
  ∧ negb (Str.truthy (Str.replicate 100 "a"))
    || (Str.length (Str.replicate 100 "a") <? minTextLength) = false.
Proof. split; vm_compute; reflexivity. Qed.

(** C8, as stated, fails: when pdf-parse throws and the OCR engine reads no
    page, [extractPdfText] returns the empty text. *)
Lemma extractPdfText_returns_empty_text :
  extractPdfText blank_scan [] initial = (Returned "", add_ocr 1 initial).
Proof. vm_compute. reflexivity. Qed.

(** C8, as the code has it. [extractPdfText] returns a text or throws what
    an entry into the OCR fallback threw. The text it returns is empty only
    when it is the text of an OCR entry in which none of the 10 pages was
    read. *)
Theorem extractPdfText_empty_only_from_blank_ocr
    (w : world) (pdfBuffer : buffer) (σ : state) :
  match fst (extractPdfText w pdfBuffer σ) with
  | Returned text =>
      text ≠ ""
      ∨ ∃ k, ocr_invocations σ ≤ k < ocr_invocations (snd (extractPdfText w pdfBuffer σ))
             ∧ ocr_result (ocr w k pdfBuffer) = Returned ""
             ∧ ∀ i, 1 ≤ i ≤ pageCount → page_blank (ocr w k pdfBuffer) i
  | Threw e =>
      ∃ k, ocr_invocations σ ≤ k < ocr_invocations (snd (extractPdfText w pdfBuffer σ))
           ∧ ocr_result (ocr w k pdfBuffer) = Threw e
  end.
Proof.
  rewrite Extraction.extractPdfText_unfold. cbv zeta.
  assert (∀ k text, ocr_result (ocr w k pdfBuffer) = Returned text →
            text = "" → ∀ i, 1 ≤ i ≤ pageCount → page_blank (ocr w k pdfBuffer) i)
    as Hblank.
  { intros k text Hr ->. apply Extraction.ocr_result_returned in Hr.
    by apply Extraction.ocr_pages_empty. }
  destruct (pdfParse w pdfBuffer) as [text|e].
  - destruct (has_text_layer text) eqn:Hlayer.
    + cbn. left. intros ->. discriminate Hlayer.
    + destruct (ocr_result (ocr w (ocr_invocations σ) pdfBuffer)) as [scanned|e] eqn:H1.
      * cbn. destruct (decide (scanned = "")) as [->|Hne]; [right|by left].
        exists (ocr_invocations σ). split_and!; [lia|lia|done|by eapply Hblank].
      * cbn. destruct (ocr_result (ocr w (S (ocr_invocations σ)) pdfBuffer))
          as [scanned|e'] eqn:H2.
        -- destruct (decide (scanned = "")) as [->|Hne]; [right|by left].
           exists (S (ocr_invocations σ)).
           split_and!; [lia|lia|done|by eapply Hblank].
        -- exists (S (ocr_invocations σ)). split_and!; [lia|lia|done].
  - cbn. destruct (ocr_result (ocr w (ocr_invocations σ) pdfBuffer)) as [scanned|e'] eqn:H1.
    + destruct (decide (scanned = "")) as [->|Hne]; [right|by left].
      exists (ocr_invocations σ). split_and!; [lia|lia|done|by eapply Hblank].
    + exists (ocr_invocations σ). split_and!; [lia|lia|done].
Qed.

Lemma extractPdfText_empty_only_from_blank_ocr_witness :
  "" ≠ ""
  ∨ ∃ k, 0 ≤ k < 1
         ∧ ocr_result (ocr blank_scan k []) = Returned ""
         ∧ ∀ i, 1 ≤ i ≤ pageCount → page_blank (ocr blank_scan k []) i.
Proof. exact (extractPdfText_empty_only_from_blank_ocr blank_scan [] initial). Defined.

(** ** Structured extraction *)

Module Extractor.




Lemma pushed_returned parsed :
  pushed (Returned parsed)
  = match records_of parsed with Returned items => items | Threw _ => [] end.
Proof. done. Qed.

(** The loop over the chunks appends, chunk after chunk, what each chunk
    gives. *)
Lemma collect_spec w chunks : ∀ i allItems,
  collect w i chunks allItems
  = allItems ++ concat (imap (λ j chunk, chunk_records w (i + j) chunk) chunks).
Proof.
  induction chunks as [|chunk rest IH]; intros i allItems.
  - cbn. by rewrite app_nil_r.
  - cbn [collect imap concat]. rewrite IH, <- app_assoc, Nat.add_0_r.
    do 3 f_equal. apply imap_ext. intros j c _. cbn. f_equal. lia.
Qed.


Lemma filter_negative_keyable creditItems :
  Forall keyable creditItems →
  ∃ negativeItems,
    filter_negative creditItems = Returned negativeItems
    ∧ Forall keyable negativeItems.
Proof.
  induction 1 as [|item rest Hitem _ (kept & Hkept & IH)]; [by exists []|].
  destruct (keyable_get item "isNegative" Hitem) as [v Hv].
  cbn. rewrite Hv. cbn. rewrite Hkept. cbn.
  destruct (Js.truthy v); eexists; split; eauto.
Qed.

Lemma project_negative_keyable negativeItems :
  Forall keyable negativeItems →
  ∃ accounts, project_negative negativeItems = Returned accounts.
Proof.
  induction 1 as [|item rest Hitem _ (accounts & Haccounts)]; [by exists []|].
  destruct (keyable_get item "creditor" Hitem) as [c Hc].
  destruct (keyable_get item "type" Hitem) as [t Ht].
  destruct (keyable_get item "amount" Hitem) as [a Ha].
  destruct (keyable_get item "bureaus" Hitem) as [b Hb].
  cbn. rewrite Hc. cbn. rewrite Ht. cbn. rewrite Ha. cbn. rewrite Hb. cbn.
  rewrite Haccounts. cbn. eauto.
Qed.

End Extractor.



(** An empty or non-array [items] hides the [accounts] of the same reply. *)
Example empty_items_hide_accounts :
  pushed (Returned (VObj [("items", VArr []); ("accounts", VArr [acme])])) = []
  ∧ pushed (Returned (VObj [("items", VStr "none"); ("accounts", VArr [acme])])) = [].
Proof. split; reflexivity. Qed.

(** A reply that parses to [null] is skipped like a failed call. *)
Example null_reply_is_skipped :
  records_of VNull = Threw "Cannot read properties of null (reading 'items')"
  ∧ pushed (Returned VNull) = [].
Proof. split; reflexivity. Qed.






(** The run of the sample job: three chunks, the second fails, the records
    of the first and third are deduplicated to three items, one of them
    negative. *)
Example digital_job :
  length (chunkText three_lines defaultMaxChunkSize) = 3
  ∧ sent (snd (process digital sample_request initial)) = [Success "job-1" 3 1]
  ∧ status <$> pdf_processing_jobs (snd (process digital sample_request initial)) !! "job-1"
    = Some completed
  ∧ creditor <$> credit_items (snd (process digital sample_request initial))
    = [VStr "Acme"; VStr "Visa"; VStr "Acme"].
Proof. split_and!; vm_compute; reflexivity. Qed.

(** A [null] among the records of another chunk fails the job in the
    deduplication, outside the [try] of the loop over the chunks. *)
Example null_record_fails_job :
  let w := World (download digital) (pdfParse digital) (ocr digital)
             (λ _ _, Returned (VObj [("items", VArr [acme; VNull])]))
             (upsert digital) (started_iso digital) (finished_iso digital) in
  sent (snd (process w sample_request initial))
  = [Failure "Cannot read properties of null (reading 'creditor')"].
Proof. vm_compute. reflexivity. Qed.

(** * Further properties *)

(** ** The chunker *)

Module ChunkerFacts.

Lemma render_cons line group :
  render (line :: group) = terminated line +:+ render group.
Proof. done. Qed.

Lemma render_length_elem group line :
  line ∈ group → S (Str.length line) ≤ Str.length (render group).
Proof.
  induction group as [|l group IH]; intros Hin.
  - by apply elem_of_nil in Hin.
  - rewrite render_cons, StrFacts.length_app. unfold terminated at 1.
    rewrite StrFacts.length_app. cbn [Str.NL String.length].
    apply elem_of_cons in Hin as [->|Hin]; [lia|].
    specialize (IH Hin). lia.
Qed.

Lemma render_ends_with_NL group :
  group ≠ [] → ∃ body, render group = body +:+ Str.NL.
Proof.
  intros Hne. destruct (exists_last Hne) as (init & line & ->).
  exists (render init +:+ line). by rewrite render_snoc, StrFacts.app_assoc.
Qed.

Lemma groups_length (groups : list (list string)) :
  Forall (λ g, g ≠ []) groups → length groups ≤ length (concat groups).
Proof.
  induction 1 as [|g groups Hg _ IH]; [done|].
  cbn. rewrite length_app. destruct g; [done|]. cbn. lia.
Qed.

Lemma elem_of_concat (line : string) (groups : list (list string)) :
  line ∈ concat groups → ∃ g, line ∈ g ∧ g ∈ groups.
Proof.
  induction groups as [|g groups IH]; cbn; intros Hin.
  - by apply elem_of_nil in Hin.
  - apply elem_of_app in Hin as [Hin|Hin].
    + exists g. split; [done|]. apply list_elem_of_here.
    + destruct (IH Hin) as (g' & ? & ?). exists g'. split; [done|].
      by apply list_elem_of_further.
Qed.

Lemma join_cons sep line next rest :
  Str.join sep (line :: next :: rest) = line +:+ sep +:+ Str.join sep (next :: rest).
Proof. done. Qed.

Lemma length_NL : Str.length Str.NL = 1.
Proof. done. Qed.

(** While the rest of the text fits, the loop never flushes. *)
Lemma fold_fits maxChunkSize lines : ∀ current,
  lines = [] ∨ Str.length current + Str.length (Str.join Str.NL lines) ≤ maxChunkSize →
  fold_left (chunk_line maxChunkSize) lines (Chunker [] current)
  = Chunker [] (current +:+ render lines).
Proof.
  induction lines as [|line rest IH]; intros current Hfit.
  - cbn. by rewrite StrFacts.app_nil_r.
  - destruct Hfit as [?|Hfit]; [done|].
    cbn [fold_left]. unfold chunk_line at 2. cbn [chunks currentChunk].
    assert (Str.length (current +:+ line) ≤ maxChunkSize
            ∧ (rest = [] ∨ Str.length (current +:+ line +:+ Str.NL)
                            + Str.length (Str.join Str.NL rest) ≤ maxChunkSize))
      as [Hline Hrest].
    { rewrite !StrFacts.length_app, length_NL. destruct rest as [|next rest].
      - cbn in Hfit. split; [lia|by left].
      - rewrite join_cons, !StrFacts.length_app, length_NL in Hfit.
        split; [lia|right; lia]. }
    apply Nat.ltb_ge in Hline. rewrite Hline. cbn [chunks currentChunk].
    rewrite (IH _ Hrest).
    rewrite render_cons. unfold terminated. by rewrite !StrFacts.app_assoc.
Qed.

Lemma chunk_line_tracks_shaped maxChunkSize st flushed current line :
  tracks_shaped maxChunkSize st flushed current →
  ∃ flushed' current',
    tracks_shaped maxChunkSize (chunk_line maxChunkSize st line) flushed' current'
    ∧ concat flushed' ++ current' = (concat flushed ++ current) ++ [line]
    ∧ current' ≠ [].
Proof.
  intros ((Hc & Hcur & Hne) & Hflushed & Hcurrent).
  unfold chunk_line, tracks_shaped, tracks.
  destruct (Nat.ltb_spec maxChunkSize (Str.length (currentChunk st +:+ line)))
    as [Hlong|Hshort]; [destruct (Str.truthy (currentChunk st)) eqn:Ht|].
  - assert (current ≠ []) as Hcne.
    { intros ->. by rewrite Hcur in Ht. }
    exists (flushed ++ [current]), [line]. cbn [chunks currentChunk].
    split_and!.
    + by rewrite Hc, Hcur, fmap_app.
    + symmetry. apply (render_snoc [] line).
    + apply Forall_app. split; [done|]. by constructor.
    + apply Forall_app. split; [done|]. constructor; [|done].
      by destruct Hcurrent.
    + right. right. by exists line.
    + rewrite concat_app. cbn. by rewrite app_nil_r.
    + done.
  - apply StrFacts.not_truthy in Ht.
    assert (current = []) as ->.
    { destruct current; [done|]. rewrite Hcur in Ht.
      apply (f_equal Str.truthy) in Ht. by rewrite render_truthy in Ht. }
    exists flushed, [line]. split_and!; try done.
    + rewrite Ht. symmetry. apply (render_snoc [] line).
    + right. right. by exists line.
    + by rewrite app_nil_r.
  - exists flushed, (current ++ [line]). split_and!; try done.
    + by rewrite render_snoc, <- Hcur.
    + right. left. rewrite render_snoc, <- Hcur, <- StrFacts.app_assoc.
      rewrite StrFacts.length_app. cbn [Str.NL String.length]. lia.
    + by rewrite app_assoc.
    + by destruct current.
Qed.

Lemma fold_tracks_shaped maxChunkSize lines : ∀ st flushed current,
  tracks_shaped maxChunkSize st flushed current →
  ∃ flushed' current',
    tracks_shaped maxChunkSize (fold_left (chunk_line maxChunkSize) lines st)
      flushed' current'
    ∧ concat flushed' ++ current' = (concat flushed ++ current) ++ lines
    ∧ (lines ≠ [] → current' ≠ []).
Proof.
  induction lines as [|line lines IH]; intros st flushed current Ht.
  - exists flushed, current. by rewrite app_nil_r.
  - destruct (chunk_line_tracks_shaped _ st flushed current line Ht)
      as (f1 & c1 & Ht1 & Heq1 & Hne1).
    destruct (IH _ _ _ Ht1) as (f2 & c2 & Ht2 & Heq2 & Hne2).
    exists f2, c2. split; [done|]. split.
    + by rewrite Heq2, Heq1, <- app_assoc.
    + intros _. destruct lines; [|by apply Hne2].
      cbn in Ht2. destruct Ht1 as ((_ & E1 & _) & _), Ht2 as ((_ & E2 & _) & _).
      rewrite E1 in E2. intros ->.
      apply (f_equal Str.truthy) in E2.
      by rewrite (render_truthy c1 Hne1) in E2.
Qed.

(** The groups behind the chunks, with their shape. *)
Lemma chunkText_shaped_groups text maxChunkSize :
  ∃ groups,
    concat groups = Str.split Str.LF text
    ∧ Forall (λ g, g ≠ []) groups
    ∧ Forall (shaped maxChunkSize) groups
    ∧ chunkText text maxChunkSize = render <$> groups.
Proof.
  unfold chunkText.
  destruct (fold_tracks_shaped maxChunkSize (Str.split Str.LF text)
              (Chunker [] "") [] [])
    as (flushed & current & ((Hc & Hcur & Hne) & Hfl & Hcu) & Heq & Hlast).
  { split_and!; try done. by left. }
  specialize (Hlast (StrFacts.split_nonempty _ _)).
  exists (flushed ++ [current]). split_and!.
  - rewrite concat_app. cbn. by rewrite app_nil_r.
  - apply Forall_app. split; [done|]. by constructor.
  - apply Forall_app. split; [done|]. constructor; [|done]. by destruct Hcu.
  - rewrite Hcur, (render_truthy _ Hlast), Hc, fmap_app. done.
Qed.

End ChunkerFacts.

(** X1. [chunkText] returns at least one chunk and at most one chunk per
    line of the text, and every chunk ends with a line feed (so no chunk is
    empty), also for the empty text. *)
Theorem chunkText_chunks_end_with_line_feed (text : string) (maxChunkSize : nat) :
  chunkText text maxChunkSize ≠ []
  ∧ length (chunkText text maxChunkSize) ≤ length (Str.split Str.LF text)
  ∧ Forall (λ chunk, ∃ body, chunk = body +:+ Str.NL) (chunkText text maxChunkSize).
Proof.
  destruct (chunkText_groups maxChunkSize text) as (groups & Hlines & Hne & ->).
  split_and!.
  - intros Hnil. apply fmap_nil_inv in Hnil. subst groups.
    by destruct (StrFacts.split_nonempty Str.LF text).
  - rewrite length_fmap, <- Hlines. by apply ChunkerFacts.groups_length.
  - apply Forall_fmap. eapply Forall_impl; [exact Hne|].
    intros g Hg. by apply ChunkerFacts.render_ends_with_NL.
Qed.

(** X2. A text no longer than the bound comes back as one chunk: the text
    followed by a line feed. *)
Theorem chunkText_short_text_is_one_chunk (text : string) (maxChunkSize : nat) :
  Str.length text ≤ maxChunkSize →
  chunkText text maxChunkSize = [text +:+ Str.NL].
Proof.
  intros Hfit. unfold chunkText.
  rewrite ChunkerFacts.fold_fits.
  - cbn [chunks currentChunk]. rewrite StrFacts.app_nil_l.
    rewrite render_truthy by apply StrFacts.split_nonempty. cbn [app].
    rewrite render_join by apply StrFacts.split_nonempty.
    unfold Str.NL. by rewrite StrFacts.join_split.
  - right. unfold Str.NL. by rewrite StrFacts.join_split.
Qed.

Lemma chunkText_short_text_is_one_chunk_witness :
  chunkText ("ab" +:+ Str.NL +:+ "cd") 5 = [("ab" +:+ Str.NL +:+ "cd") +:+ Str.NL].
Proof.
  apply (chunkText_short_text_is_one_chunk ("ab" +:+ Str.NL +:+ "cd") 5).
  vm_compute. lia.
Defined.

(** X3. A line longer than the bound is never merged with another line: it
    comes back as a chunk of its own, the line followed by a line feed. *)
Theorem chunkText_long_line_is_own_chunk
    (text : string) (maxChunkSize : nat) (line : string) :
  line ∈ Str.split Str.LF text →
  maxChunkSize < Str.length line →
  line +:+ Str.NL ∈ chunkText text maxChunkSize.
Proof.
  intros Hin Hlong.
  destruct (ChunkerFacts.chunkText_shaped_groups text maxChunkSize)
    as (groups & Hlines & _ & Hshape & ->).
  rewrite <- Hlines in Hin. apply ChunkerFacts.elem_of_concat in Hin as (g & Hl & Hg).
  apply list_elem_of_fmap. exists g. split; [|done].
  pose proof (proj1 (Forall_forall _ _) Hshape g Hg) as [Hle|[l ->]].
  - pose proof (ChunkerFacts.render_length_elem g line Hl). lia.
  - apply list_elem_of_singleton in Hl as ->.
    unfold render. cbn. unfold terminated. by rewrite StrFacts.app_nil_r.
Qed.

Lemma chunkText_long_line_is_own_chunk_witness :
  "a long line" +:+ Str.NL ∈ chunkText ("ab" +:+ Str.NL +:+ "a long line" +:+ Str.NL +:+ "cd") 5.
Proof.
  apply chunkText_long_line_is_own_chunk.
  - vm_compute. apply list_elem_of_further, list_elem_of_here.
  - vm_compute. lia.
Defined.

Module GreedyFacts.

Lemma greedy_extend_last maxChunkSize groups : ∀ current line,
  current ≠ [] →
  greedy maxChunkSize (groups ++ [current]) →
  greedy maxChunkSize (groups ++ [current ++ [line]]).
Proof.
  induction groups as [|g groups IH]; intros current line Hne Hgreedy; [done|].
  cbn in *. destruct Hgreedy as [Hnext Hrest]. split; [|by apply IH].
  destruct groups as [|g' groups]; [|done].
  cbn in *. by destruct current.
Qed.

Lemma greedy_new_last maxChunkSize groups : ∀ current line,
  maxChunkSize < Str.length (render current +:+ line) →
  greedy maxChunkSize (groups ++ [current]) →
  greedy maxChunkSize ((groups ++ [current]) ++ [[line]]).
Proof.
  induction groups as [|g groups IH]; intros current line Hlong Hgreedy.
  - cbn. done.
  - cbn in *. destruct Hgreedy as [Hnext Hrest]. split; [|by apply IH].
    destruct groups as [|g' groups]; [|done].
    cbn in *. done.
Qed.

Lemma greedy_lookup maxChunkSize groups : ∀ i g line more,
  greedy maxChunkSize groups →
  groups !! i = Some g →
  groups !! S i = Some (line :: more) →
  maxChunkSize < Str.length (render g +:+ line).
Proof.
  induction groups as [|g0 groups IH]; intros i g line more Hgreedy Hi Hnext; [done|].
  cbn in Hgreedy. destruct Hgreedy as [Hfirst Hrest].
  destruct i as [|i].
  - cbn in Hi, Hnext. injection Hi as ->.
    destruct groups as [|g1 groups]; [done|]. cbn in Hnext. injection Hnext as ->.
    done.
  - cbn in Hi, Hnext. by eapply IH.
Qed.

Lemma chunk_line_greedy maxChunkSize st flushed current line :
  tracks st flushed current →
  greedy maxChunkSize (flushed ++ [current]) →
  (current = [] → flushed = []) →
  ∃ flushed' current',
    tracks (chunk_line maxChunkSize st line) flushed' current'
    ∧ greedy maxChunkSize (flushed' ++ [current'])
    ∧ concat flushed' ++ current' = (concat flushed ++ current) ++ [line]
    ∧ current' ≠ [].
Proof.
  intros (Hc & Hcur & Hne) Hgreedy Hfirst. unfold chunk_line, tracks.
  destruct (Nat.ltb_spec maxChunkSize (Str.length (currentChunk st +:+ line)))
    as [Hlong|Hshort]; [destruct (Str.truthy (currentChunk st)) eqn:Ht|].
  - assert (current ≠ []) as Hcne.
    { intros ->. by rewrite Hcur in Ht. }
    exists (flushed ++ [current]), [line]. cbn [chunks currentChunk].
    split_and!.
    + by rewrite Hc, Hcur, fmap_app.
    + symmetry. apply (render_snoc [] line).
    + apply Forall_app. split; [done|]. by constructor.
    + apply greedy_new_last; [by rewrite <- Hcur|done].
    + rewrite concat_app. cbn. by rewrite app_nil_r.
    + done.
  - apply StrFacts.not_truthy in Ht.
    assert (current = []) as ->.
    { destruct current; [done|]. rewrite Hcur in Ht.
      apply (f_equal Str.truthy) in Ht. by rewrite render_truthy in Ht. }
    rewrite (Hfirst eq_refl) in *.
    exists [], [line]. split_and!; try done.
    rewrite Ht. symmetry. apply (render_snoc [] line).
  - exists flushed, (current ++ [line]). split_and!; try done.
    + by rewrite render_snoc, <- Hcur.
    + destruct current as [|l0 current].
      * by rewrite (Hfirst eq_refl).
      * by apply greedy_extend_last.
    + by rewrite app_assoc.
    + by destruct current.
Qed.

Lemma fold_greedy maxChunkSize lines : ∀ st flushed current,
  tracks st flushed current →
  greedy maxChunkSize (flushed ++ [current]) →
  (current = [] → flushed = []) →
  ∃ flushed' current',
    tracks (fold_left (chunk_line maxChunkSize) lines st) flushed' current'
    ∧ greedy maxChunkSize (flushed' ++ [current'])
    ∧ concat flushed' ++ current' = (concat flushed ++ current) ++ lines
    ∧ (lines ≠ [] → current' ≠ []).
Proof.
  induction lines as [|line lines IH]; intros st flushed current Ht Hg Hfirst.
  - exists flushed, current. by rewrite app_nil_r.
  - destruct (chunk_line_greedy _ st flushed current line Ht Hg Hfirst)
      as (f1 & c1 & Ht1 & Hg1 & Heq1 & Hne1).
    destruct (IH _ _ _ Ht1 Hg1) as (f2 & c2 & Ht2 & Hg2 & Heq2 & Hne2); [done|].
    exists f2, c2. split_and!; [done|done| |].
    + by rewrite Heq2, Heq1, <- app_assoc.
    + intros _. destruct lines; [|by apply Hne2].
      cbn in Ht2. destruct Ht1 as (_ & E1 & _), Ht2 as (_ & E2 & _).
      rewrite E1 in E2. intros ->.
      apply (f_equal Str.truthy) in E2.
      by rewrite (render_truthy c1 Hne1) in E2.
Qed.

End GreedyFacts.

(** X23. The chunker closes a chunk only when the next line would take it
    over the bound: the chunks are consecutive non-empty groups of the lines,
    and each group but the last, with the first line of the next group added,
    is longer than the bound. *)
Theorem chunkText_is_greedy (text : string) (maxChunkSize : nat) :
  ∃ groups : list (list string),
    concat groups = Str.split Str.LF text
    ∧ Forall (λ g, g ≠ []) groups
    ∧ chunkText text maxChunkSize = render <$> groups
    ∧ ∀ i g line more,
        groups !! i = Some g →
        groups !! S i = Some (line :: more) →
        maxChunkSize < Str.length (render g +:+ line).
Proof.
  unfold chunkText.
  destruct (GreedyFacts.fold_greedy maxChunkSize (Str.split Str.LF text)
              (Chunker [] "") [] [])
    as (flushed & current & (Hc & Hcur & Hne) & Hg & Heq & Hlast).
  { by split_and!. }
  { by cbn. }
  { done. }
  specialize (Hlast (StrFacts.split_nonempty _ _)).
  exists (flushed ++ [current]). split_and!.
  - rewrite concat_app. cbn. by rewrite app_nil_r.
  - apply Forall_app. split; [done|]. by constructor.
  - rewrite Hcur, (render_truthy _ Hlast), Hc, fmap_app. done.
  - intros i g line more. by apply GreedyFacts.greedy_lookup.
Qed.

Lemma chunkText_is_greedy_witness :
  ∃ groups : list (list string),
    concat groups = Str.split Str.LF ("ab" +:+ Str.NL +:+ "cd" +:+ Str.NL +:+ "efghi")
    ∧ Forall (λ g, g ≠ []) groups
    ∧ chunkText ("ab" +:+ Str.NL +:+ "cd" +:+ Str.NL +:+ "efghi") 5 = render <$> groups
    ∧ ∀ i g line more,
        groups !! i = Some g →
        groups !! S i = Some (line :: more) →
        5 < Str.length (render g +:+ line).
Proof.
  exact (chunkText_is_greedy ("ab" +:+ Str.NL +:+ "cd" +:+ Str.NL +:+ "efghi") 5).
Defined.

(** X4. Every chunk has at most [maxChunkSize + 1] characters, the line
    feed after its last line being the one character that is not counted,
    unless it is a single line that alone exceeds [maxChunkSize], followed by
    its line feed. *)
Theorem chunkText_chunk_length_bound (text : string) (maxChunkSize : nat) :
  Forall (λ chunk,
            Str.length chunk ≤ maxChunkSize + 1
            ∨ ∃ line, line ∈ Str.split Str.LF text
                      ∧ chunk = line +:+ Str.NL
                      ∧ maxChunkSize < Str.length line)
         (chunkText text maxChunkSize).
Proof.
  destruct (ChunkerFacts.chunkText_shaped_groups text maxChunkSize)
    as (groups & Hconcat & _ & Hshape & ->).
  apply Forall_fmap, Forall_forall. intros g Hg. cbn.
  pose proof (proj1 (Forall_forall _ _) Hshape g Hg) as [Hle|[l ->]]; [left; lia|].
  assert (l ∈ Str.split Str.LF text) as Hl.
  { rewrite <- Hconcat. clear -Hg. induction groups as [|g' groups IH].
    - by apply elem_of_nil in Hg.
    - cbn. apply elem_of_app. apply elem_of_cons in Hg as [<-|Hg].
      + left. apply list_elem_of_here.
      + right. by apply IH. }
  assert (render [l] = l +:+ Str.NL) as ->.
  { unfold render. cbn. unfold terminated. by rewrite StrFacts.app_nil_r. }
  destruct (decide (Str.length l ≤ maxChunkSize)) as [Hshort|Hlong].
  - left. rewrite StrFacts.length_app, ChunkerFacts.length_NL. lia.
  - right. exists l. split_and!; [done|done|lia].
Qed.

(** ** The OCR fallback *)

Module OcrFacts.

Lemma ocr_page_text run allText i :
  ocr_page run allText i = allText +:+ page_text run i.
Proof.
  unfold ocr_page, page_text.
  destruct (convert run i) as [[]|]; [destruct (recognize run i)|..];
    by rewrite ?StrFacts.app_nil_r.
Qed.

Lemma fold_ocr_page run pages : ∀ allText,
  fold_left (ocr_page run) pages allText
  = allText +:+ Str.concat (page_text run <$> pages).
Proof.
  induction pages as [|p pages IH]; intros allText.
  - cbn. by rewrite StrFacts.app_nil_r.
  - cbn [fold_left fmap list_fmap].
    rewrite IH, ocr_page_text, StrFacts.concat_cons.
    by rewrite StrFacts.app_assoc.
Qed.

End OcrFacts.

(** X5. [extractTextWithOCR] returns exactly when the worker is created, the
    converter is built and the worker terminates; what the pages do plays no
    part. The text is then what pages 1 to 10 add, in page order, a page that
    cannot be converted or read adding nothing. *)
Theorem extractTextWithOCR_returns_iff (w : world) (pdfBuffer : buffer) (σ : state) :
  let run := ocr w (ocr_invocations σ) pdfBuffer in
  ((∃ text, fst (extractTextWithOCR w pdfBuffer σ) = Returned text)
   ↔ createWorker run = Returned ()
     ∧ fromBuffer run = Returned ()
     ∧ terminate run = Returned ())
  ∧ ∀ text, fst (extractTextWithOCR w pdfBuffer σ) = Returned text →
            text = Str.concat (page_text run <$> seq 1 10).
Proof.
  intros run. rewrite Effects.extractTextWithOCR_run. cbn [fst]. fold run.
  assert (ocr_pages run = Str.concat (page_text run <$> seq 1 10)) as Hpages.
  { unfold ocr_pages. by rewrite OcrFacts.fold_ocr_page. }
  unfold ocr_result. split; [split|].
  - intros [text Htext].
    destruct (createWorker run) as [[]|]; [|done].
    destruct (fromBuffer run) as [[]|]; [|by destruct (terminate_on_error run)].
    destruct (terminate run) as [[]|]; [done|by destruct (terminate_on_error run)].
  - intros (-> & -> & ->). by eexists.
  - intros text.
    destruct (createWorker run) as [[]|]; [|done].
    destruct (fromBuffer run) as [[]|]; [|by destruct (terminate_on_error run)].
    destruct (terminate run) as [[]|]; [|by destruct (terminate_on_error run)].
    intros [= <-]. done.
Qed.

Lemma extractTextWithOCR_returns_iff_witness :
  ((∃ text, fst (extractTextWithOCR blank_scan [] initial) = Returned text)
   ↔ createWorker ocr_blank = Returned ()
     ∧ fromBuffer ocr_blank = Returned ()
     ∧ terminate ocr_blank = Returned ())
  ∧ ∀ text, fst (extractTextWithOCR blank_scan [] initial) = Returned text →
            text = Str.concat (page_text ocr_blank <$> seq 1 10).
Proof. exact (extractTextWithOCR_returns_iff blank_scan [] initial). Defined.

(** X6. When the converter cannot be built, or the worker does not
    terminate at the end of the [try] block, [extractTextWithOCR] throws that
    error, unless terminating the worker in the [catch] block throws in turn:
    then this second error is thrown and the first is lost. *)
Theorem extractTextWithOCR_cleanup_error_masks (w : world) (pdfBuffer : buffer) (σ : state)
    (e : string) :
  let run := ocr w (ocr_invocations σ) pdfBuffer in
  createWorker run = Returned () →
  fromBuffer run = Threw e
  ∨ (fromBuffer run = Returned () ∧ terminate run = Threw e) →
  fst (extractTextWithOCR w pdfBuffer σ)
  = match terminate_on_error run with
    | Returned _ => Threw e
    | Threw e' => Threw e'
    end.
Proof.
  intros run Hworker Hfail. rewrite Effects.extractTextWithOCR_run. cbn [fst].
  fold run. unfold ocr_result. rewrite Hworker.
  destruct Hfail as [->|[-> ->]]; done.
Qed.

Lemma extractTextWithOCR_cleanup_error_masks_witness :
  let w := World (download typed) (pdfParse typed)
             (λ _ _, OcrRun (Returned ()) (Threw "pdf2pic: GraphicsMagick not found")
                       (λ _, Returned true) (λ _, Returned "")
                       (Returned ()) (Threw "worker already terminated"))
             (chat typed) (upsert typed) (started_iso typed) (finished_iso typed) in
  fst (extractTextWithOCR w [] initial) = Threw "worker already terminated".
Proof.
  intros w.
  apply (extractTextWithOCR_cleanup_error_masks w [] initial
           "pdf2pic: GraphicsMagick not found").
  - reflexivity.
  - left. reflexivity.
Defined.

(** ** Text extraction *)

(** X7. [extractPdfText] enters the OCR fallback at most twice: not at all
    when the native text is long enough, once when pdf-parse throws (an OCR
    failure is then not retried), and once or twice when the native text is
    too short, twice exactly when the first OCR run throws. *)
Theorem extractPdfText_ocr_entries (w : world) (pdfBuffer : buffer) (σ : state) :
  let before := ocr_invocations σ in
  let after := ocr_invocations (snd (extractPdfText w pdfBuffer σ)) in
  match pdfParse w pdfBuffer with
  | Threw _ => after = S before
  | Returned text =>
      if has_text_layer text then after = before
      else
        match ocr_result (ocr w before pdfBuffer) with
        | Returned _ => after = S before
        | Threw _ => after = S (S before)
        end
  end.
Proof.
  cbv zeta. rewrite Extraction.extractPdfText_unfold. cbv zeta.
  destruct (pdfParse w pdfBuffer) as [text|e]; [|done].
  destruct (has_text_layer text); [done|].
  by destruct (ocr_result _).
Qed.

(** ** The job handler *)

Module HandlerFacts.

(** When the deduplication loop returns, every record had a key. *)
Lemma dedup_loop_returns_keyable allItems : ∀ seen uniqueItems kept,
  dedup_loop allItems seen uniqueItems = Returned kept → Forall keyable allItems.
Proof.
  induction allItems as [|item rest IH]; intros seen acc kept Hret; [constructor|].
  cbn [dedup_loop] in Hret.
  destruct (dedupKey item) as [key|e] eqn:Hkey; [|done]. cbn in Hret.
  constructor; [by exists key|].
  destruct (decide (key ∈ seen)); by eapply IH.
Qed.

Lemma deduplicate_returns_keyable allItems kept :
  deduplicate allItems = Returned kept → Forall keyable allItems ∧ Forall keyable kept.
Proof.
  intros Hret. pose proof (dedup_loop_returns_keyable _ _ _ _ Hret) as Hall.
  split; [done|]. rewrite Dedup.deduplicate_spec in Hret by done.
  injection Hret as <-. by apply Dedup.first_occurrences_keyable.
Qed.

Lemma filter_negative_length creditItems : ∀ negativeItems,
  filter_negative creditItems = Returned negativeItems →
  length negativeItems ≤ length creditItems.
Proof.
  induction creditItems as [|item rest IH]; intros neg; cbn.
  - by intros [= <-].
  - destruct (Js.get item "isNegative") as [v|]; [|done]. cbn.
    destruct (filter_negative rest) as [kept|]; [|done]. cbn.
    specialize (IH kept eq_refl).
    destruct (Js.truthy v); intros [= <-]; cbn; lia.
Qed.

Lemma project_negative_length negativeItems : ∀ accounts,
  project_negative negativeItems = Returned accounts →
  length accounts = length negativeItems.
Proof.
  induction negativeItems as [|item rest IH]; intros accounts; cbn.
  - by intros [= <-].
  - destruct (Js.get item "creditor"); [|done]. cbn.
    destruct (Js.get item "type"); [|done]. cbn.
    destruct (Js.get item "amount"); [|done]. cbn.
    destruct (Js.get item "bureaus"); [|done]. cbn.
    destruct (project_negative rest) as [rest'|]; [|done]. cbn.
    intros [= <-]. cbn. by rewrite (IH rest').
Qed.

Lemma saved_rows_length w profileId creditItems : ∀ i,
  length (saved_rows w profileId i creditItems) ≤ length creditItems.
Proof.
  induction creditItems as [|item rest IH]; intros i; [done|].
  cbn. rewrite length_app. specialize (IH (S i)).
  destruct (row_of profileId item) as [row|]; [destruct (upsert w i row)|]; cbn; lia.
Qed.

(** How an invocation ends: either the job is marked [failed] with the
    message of the error, that message is sent and no row was added; or the
    job is marked [completed] with the counts of the kept records, the same
    counts are sent and the rows of the kept records were added. *)
Lemma process_outcome w req σ :
  ∃ n, n ≤ 2 ∧
    let σ2 := add_ocr n (after_processing w req σ) in
    (∃ e, process w req σ
          = (Returned (),
             after_terminal req failed (mark_failed w e) (Failure e) σ2))
    ∨ (∃ (kept negativeItems : list jsval) (accounts : list negative_account),
         Forall keyable kept
         ∧ length negativeItems ≤ length kept
         ∧ length accounts = length negativeItems
         ∧ process w req σ
           = (Returned (),
              after_terminal req completed
                (mark_completed w
                   (Summary (length kept) (length negativeItems) true accounts))
                (Success (jobId req) (length kept) (length negativeItems))
                (add_items (saved_rows w (profileId req) 0 kept) σ2))).
Proof.
  unfold process. rewrite Effects.try_catch_run, Handler.run_job_unfold. cbv zeta.
  set (σ1 := after_processing w req σ).
  assert (∀ e, ∃ n, n ≤ 2 ∧
    ((∃ e', (@Returned unit (), after_terminal req failed (mark_failed w e) (Failure e) σ1)
            = (Returned (), after_terminal req failed (mark_failed w e') (Failure e')
                              (add_ocr n σ1)))
     ∨ (∃ (kept negativeItems : list jsval) (accounts : list negative_account),
          Forall keyable kept
          ∧ length negativeItems ≤ length kept
          ∧ length accounts = length negativeItems
          ∧ (@Returned unit (), after_terminal req failed (mark_failed w e) (Failure e) σ1)
            = (Returned (),
               after_terminal req completed
                 (mark_completed w
                    (Summary (length kept) (length negativeItems) true accounts))
                 (Success (jobId req) (length kept) (length negativeItems))
                 (add_items (saved_rows w (profileId req) 0 kept) (add_ocr n σ1))))))
    as Hearly.
  { intros e. exists 0. split; [lia|]. left. exists e.
    by rewrite Effects.add_ocr_0. }
  destruct (download w (filePath req)) as [reply|e]; [|apply Hearly].
  destruct (error reply) as [message|]; [apply Hearly|].
  destruct (data reply) as [pdfBuffer|]; [|apply Hearly].
  clear Hearly.
  assert (∃ n, n ≤ 2 ∧ snd (extractPdfText w pdfBuffer σ1) = add_ocr n σ1)
    as (n & Hn2 & Hn).
  { rewrite Extraction.extractPdfText_unfold. cbv zeta.
    destruct (pdfParse w pdfBuffer) as [text|]; [|by exists 1; split; [lia|]].
    destruct (has_text_layer text).
    - exists 0. split; [lia|]. by rewrite Effects.add_ocr_0.
    - destruct (ocr_result _); [exists 1|exists 2]; (split; [lia|done]). }
  destruct (extractPdfText w pdfBuffer σ1) as [[text|e] σ2]; cbn in Hn; subst σ2.
  2:{ exists n. split; [done|]. left. by exists e. }
  exists n. split; [done|].
  destruct (negb _ || _); [left; by eexists|].
  destruct (deduplicate _) as [kept|e] eqn:Hdedup; [|left; by exists e].
  apply deduplicate_returns_keyable in Hdedup as [_ Hkept].
  destruct (Extractor.filter_negative_keyable _ Hkept) as (neg & Hneg & Hnegkeys).
  destruct (Extractor.project_negative_keyable _ Hnegkeys) as (accounts & Haccounts).
  rewrite Hneg, Haccounts. right. exists kept, neg, accounts.
  split_and!; [done| | |done].
  - by apply filter_negative_length.
  - by apply project_negative_length.
Qed.

End HandlerFacts.

(** X8. The response and the row of the job tell the same story. An
    invocation sends exactly one response. A success response goes with a
    [completed] job whose [result_json] holds the counts of the response,
    [items_saved: true] and as many negative accounts as counted, never more
    than the total; an error response goes with a [failed] job whose
    [error_message] is the message sent. *)
Theorem response_mirrors_job_record (w : world) (req : request) (σ : state) (j : job) :
  pdf_processing_jobs σ !! jobId req = Some j →
  ∃ j' r,
    pdf_processing_jobs (snd (process w req σ)) !! jobId req = Some j'
    ∧ sent (snd (process w req σ)) = sent σ ++ [r]
    ∧ match r with
      | Success id total negative =>
          id = jobId req
          ∧ status j' = completed
          ∧ ∃ s, result_json j' = Some s
                 ∧ total_items s = total
                 ∧ negative_items s = negative
                 ∧ items_saved s = true
                 ∧ length (negative_accounts s) = negative
                 ∧ negative ≤ total
      | Failure e => status j' = failed ∧ error_message j' = Some e
      end.
Proof.
  intros Hj.
  destruct (HandlerFacts.process_outcome w req σ) as (n & _ & Hcases).
  destruct Hcases as [[e ->]|(kept & neg & accounts & _ & Hle & Hlen & ->)]; cbn.
  - exists (mark_failed w e (mark_processing w j)), (Failure e).
    rewrite !lookup_alter_eq, Hj. done.
  - eexists _, (Success _ _ _). rewrite !lookup_alter_eq, Hj. cbn.
    split_and!; try done. eexists. split_and!; try done.
Qed.

Lemma response_mirrors_job_record_witness :
  ∃ j' r,
    pdf_processing_jobs (snd (process blank_scan sample_request initial)) !! "job-1"
    = Some j'
    ∧ sent (snd (process blank_scan sample_request initial)) = sent initial ++ [r]
    ∧ match r with
      | Success id total negative =>
          id = "job-1"
          ∧ status j' = completed
          ∧ ∃ s, result_json j' = Some s
                 ∧ total_items s = total
                 ∧ negative_items s = negative
                 ∧ items_saved s = true
                 ∧ length (negative_accounts s) = negative
                 ∧ negative ≤ total
      | Failure e => status j' = failed ∧ error_message j' = Some e
      end.
Proof.
  apply (response_mirrors_job_record blank_scan sample_request initial queued_job).
  reflexivity.
Defined.

(** X9. A job that ends [failed] has added no row to the item table: every
    error that reaches the [catch] block is thrown before the loop that saves
    the items, and nothing after that loop can throw. *)
Theorem failed_job_saves_nothing (w : world) (req : request) (σ : state) (e : string) :
  sent (snd (process w req σ)) = sent σ ++ [Failure e] →
  credit_items (snd (process w req σ)) = credit_items σ
  ∧ status_writes (snd (process w req σ))
    = status_writes σ ++ [(jobId req, processing); (jobId req, failed)].
Proof.
  destruct (HandlerFacts.process_outcome w req σ) as (n & _ & Hcases).
  destruct Hcases as [[e' ->]|(kept & neg & accounts & _ & _ & _ & ->)]; cbn.
  - intros _. by rewrite <- app_assoc.
  - intros Hsent. apply app_inv_head in Hsent. done.
Qed.

Lemma failed_job_saves_nothing_witness :
  credit_items (snd (process blank_scan sample_request initial)) = credit_items initial
  ∧ status_writes (snd (process blank_scan sample_request initial))
    = status_writes initial ++ [("job-1", processing); ("job-1", failed)].
Proof.
  apply (failed_job_saves_nothing blank_scan sample_request initial insufficient_text).
  vm_compute. reflexivity.
Defined.

(** X10. An invocation touches no other job: the row of every other id is
    as it was. *)
Theorem other_jobs_untouched (w : world) (req : request) (σ : state) (id : string) :
  id ≠ jobId req →
  pdf_processing_jobs (snd (process w req σ)) !! id = pdf_processing_jobs σ !! id.
Proof.
  intros Hid.
  destruct (Handler.process_cases w req σ)
    as (n & rows & final & columns & r & _ & _ & _ & ->).
  cbn. by rewrite !lookup_alter_ne.
Qed.

Lemma other_jobs_untouched_witness :
  pdf_processing_jobs (snd (process digital sample_request
                              (State {[ "job-1" := queued_job; "job-2" := queued_job ]}
                                     [] [] [] 0))) !! "job-2"
  = Some queued_job.
Proof.
  rewrite (other_jobs_untouched digital sample_request _ "job-2").
  - vm_compute. reflexivity.
  - vm_compute. discriminate.
Defined.

(** X11. The writes to the job set the columns they name and leave the
    others: the row ends with the two timestamps of the invocation; a
    [completed] job keeps the [error_message] it had before (an earlier
    failure is not cleared), a [failed] job keeps the [result_json] it
    had. *)
Theorem job_columns_after (w : world) (req : request) (σ : state) (j : job) :
  pdf_processing_jobs σ !! jobId req = Some j →
  ∃ j',
    pdf_processing_jobs (snd (process w req σ)) !! jobId req = Some j'
    ∧ started_at j' = Some (started_iso w)
    ∧ completed_at j' = Some (finished_iso w)
    ∧ (status j' = completed → error_message j' = error_message j)
    ∧ (status j' = failed → result_json j' = result_json j).
Proof.
  intros Hj.
  destruct (HandlerFacts.process_outcome w req σ) as (n & _ & Hcases).
  destruct Hcases as [[e ->]|(kept & neg & accounts & _ & _ & _ & ->)]; cbn;
    rewrite !lookup_alter_eq, Hj; cbn; eexists; split_and!; done.
Qed.

Lemma job_columns_after_witness :
  let earlier := Job failed (Some "2023-12-31T10:00:00.000Z")
                   (Some "2023-12-31T10:00:05.000Z")
                   (Some "Failed to download file: Object not found") None in
  ∃ j',
    pdf_processing_jobs
      (snd (process typed sample_request (State {[ "job-1" := earlier ]} [] [] [] 0)))
      !! "job-1" = Some j'
    ∧ started_at j' = Some (started_iso typed)
    ∧ completed_at j' = Some (finished_iso typed)
    ∧ (status j' = completed → error_message j' = error_message earlier)
    ∧ (status j' = failed → result_json j' = result_json earlier).
Proof.
  intros earlier.
  apply (job_columns_after typed sample_request
           (State {[ "job-1" := earlier ]} [] [] [] 0) earlier).
  vm_compute. reflexivity.
Defined.

(** X12. A storage error fails the job before anything is read: the job is
    marked [failed] with the message of the storage error behind the prefix
    of the handler, the same message is sent, the OCR fallback is not entered
    and no row is added. *)
Theorem download_error_fails_job (w : world) (req : request) (σ : state)
    (reply : download_reply) (message : string) :
  download w (filePath req) = Returned reply →
  error reply = Some message →
  process w req σ
  = (Returned (),
     after_terminal req failed
       (mark_failed w ("Failed to download file: " +:+ message))
       (Failure ("Failed to download file: " +:+ message))
       (after_processing w req σ)).
Proof.
  intros Hdl Herr. unfold process.
  by rewrite Effects.try_catch_run, Handler.run_job_unfold, Hdl, Herr.
Qed.

Lemma download_error_fails_job_witness :
  process missing_file sample_request initial
  = (Returned (),
     after_terminal sample_request failed
       (mark_failed missing_file "Failed to download file: Object not found")
       (Failure "Failed to download file: Object not found")
       (after_processing missing_file sample_request initial)).
Proof.
  apply (download_error_fails_job missing_file sample_request initial
           (DownloadReply None (Some "Object not found")) "Object not found");
    reflexivity.
Defined.

(** X13. A text of fewer than 100 characters, from the text layer or from
    OCR, fails the job with the insufficient-text message: the language
    service is not consulted and no row is added. *)
Theorem short_text_fails_job (w : world) (req : request) (σ σ2 : state)
    (reply : download_reply) (pdfBuffer : buffer) (text : string) :
  download w (filePath req) = Returned reply →
  error reply = None →
  data reply = Some pdfBuffer →
  extractPdfText w pdfBuffer (after_processing w req σ) = (Returned text, σ2) →
  Str.length text < 100 →
  process w req σ
  = (Returned (),
     after_terminal req failed (mark_failed w insufficient_text)
       (Failure insufficient_text) σ2).
Proof.
  intros Hdl Herr Hdata Htext Hshort. unfold process.
  rewrite Effects.try_catch_run, Handler.run_job_unfold, Hdl, Herr, Hdata. cbv zeta.
  rewrite Htext.
  assert ((Str.length text <? minTextLength) = true) as ->
    by (apply Nat.ltb_lt; unfold minTextLength; lia).
  by rewrite orb_true_r.
Qed.

Lemma short_text_fails_job_witness :
  process blank_scan sample_request initial
  = (Returned (),
     after_terminal sample_request failed (mark_failed blank_scan insufficient_text)
       (Failure insufficient_text)
       (add_ocr 1 (after_processing blank_scan sample_request initial))).
Proof.
  apply (short_text_fails_job blank_scan sample_request initial _
           (DownloadReply (Some []) None) [] "").
  - reflexivity.
  - reflexivity.
  - reflexivity.
  - vm_compute. reflexivity.
  - vm_compute. lia.
Defined.

Module ExtractorFacts.

Lemma collect_nothing w chunks :
  (∀ i chunk, chunk_records w i chunk = []) → collect w 0 chunks [] = [].
Proof.
  intros Hnone. rewrite Extractor.collect_spec. cbn.
  generalize 0. induction chunks as [|chunk rest IH]; intros i; [done|].
  cbn. rewrite Hnone. cbn.
  rewrite <- (IH (S i)). f_equal. apply imap_ext. intros j c _. cbn.
  rewrite !Hnone. done.
Qed.

Lemma collect_with_upsert w u chunks : ∀ i allItems,
  collect (with_upsert w u) i chunks allItems = collect w i chunks allItems.
Proof.
  induction chunks as [|chunk rest IH]; intros i allItems; [done|].
  cbn [collect]. by rewrite IH.
Qed.

Lemma saved_rows_all_throw w u profileId creditItems : ∀ i,
  (∀ i row, ∃ e, u i row = Threw e) →
  saved_rows (with_upsert w u) profileId i creditItems = [].
Proof.
  intros i Hu. revert i.
  induction creditItems as [|item rest IH]; intros i; [done|].
  cbn. rewrite IH, app_nil_r.
  destruct (row_of profileId item) as [row|]; [|done].
  by destruct (Hu i row) as [e ->].
Qed.

End ExtractorFacts.

(** X14. When the language service fails on every chunk, the job does not
    fail: it ends [completed] with no item, and the response reports
    success with zero items. *)
Theorem service_outage_completes_with_no_item (w : world) (req : request) (σ σ2 : state)
    (reply : download_reply) (pdfBuffer : buffer) (text : string) :
  download w (filePath req) = Returned reply →
  error reply = None →
  data reply = Some pdfBuffer →
  extractPdfText w pdfBuffer (after_processing w req σ) = (Returned text, σ2) →
  100 ≤ Str.length text →
  (∀ i chunk, ∃ e, chat w i chunk = Threw e) →
  process w req σ
  = (Returned (),
     after_terminal req completed (mark_completed w (Summary 0 0 true []))
       (Success (jobId req) 0 0) σ2).
Proof.
  intros Hdl Herr Hdata Htext Hlen Hchat. unfold process.
  rewrite Effects.try_catch_run, Handler.run_job_unfold, Hdl, Herr, Hdata. cbv zeta.
  rewrite Htext.
  assert (negb (Str.truthy text) || (Str.length text <? minTextLength) = false) as ->.
  { apply orb_false_intro.
    - apply negb_false_iff, StrFacts.truthy_length. lia.
    - apply Nat.ltb_ge. unfold minTextLength. lia. }
  rewrite ExtractorFacts.collect_nothing.
  - cbn. by rewrite Effects.add_items_nil.
  - intros i chunk. destruct (Hchat i chunk) as [e He].
    unfold chunk_records. by rewrite He.
Qed.

Lemma service_outage_completes_with_no_item_witness :
  process outage sample_request initial
  = (Returned (),
     after_terminal sample_request completed
       (mark_completed outage (Summary 0 0 true []))
       (Success "job-1" 0 0)
       (after_processing outage sample_request initial)).
Proof.
  apply (service_outage_completes_with_no_item outage sample_request initial _
           (DownloadReply (Some []) None) [] (Str.replicate 120 "a")).
  - reflexivity.
  - reflexivity.
  - reflexivity.
  - vm_compute. reflexivity.
  - vm_compute. lia.
  - intros i chunk. by exists "503 service unavailable".
Defined.

(** X15. A [null] among the records of any chunk fails the whole job: the
    deduplication reads it outside the [try] of the loop over the chunks, so
    the job is marked [failed] and no row is added, although every chunk was
    answered. *)
Theorem null_record_fails_whole_job (w : world) (req : request) (σ σ2 : state)
    (reply : download_reply) (pdfBuffer : buffer) (text : string) :
  download w (filePath req) = Returned reply →
  error reply = None →
  data reply = Some pdfBuffer →
  extractPdfText w pdfBuffer (after_processing w req σ) = (Returned text, σ2) →
  100 ≤ Str.length text →
  VNull ∈ collect w 0 (chunkText text defaultMaxChunkSize) [] →
  ∃ e,
    process w req σ
    = (Returned (), after_terminal req failed (mark_failed w e) (Failure e) σ2).
Proof.
  intros Hdl Herr Hdata Htext Hlen Hnull. unfold process.
  rewrite Effects.try_catch_run, Handler.run_job_unfold, Hdl, Herr, Hdata. cbv zeta.
  rewrite Htext.
  assert (negb (Str.truthy text) || (Str.length text <? minTextLength) = false) as ->.
  { apply orb_false_intro.
    - apply negb_false_iff, StrFacts.truthy_length. lia.
    - apply Nat.ltb_ge. unfold minTextLength. lia. }
  destruct (deduplicate _) as [kept|e] eqn:Hdedup; [|by exists e].
  apply HandlerFacts.deduplicate_returns_keyable in Hdedup as [Hall _].
  pose proof (proj1 (Forall_forall _ _) Hall VNull Hnull) as [key Hkey].
  discriminate Hkey.
Qed.

Lemma null_record_fails_whole_job_witness :
  let w := World (download typed) (pdfParse typed) (ocr typed)
             (λ _ _, Returned (VObj [("items", VArr [acme; VNull])]))
             (upsert typed) (started_iso typed) (finished_iso typed) in
  ∃ e,
    process w sample_request initial
    = (Returned (),
       after_terminal sample_request failed (mark_failed w e) (Failure e)
         (after_processing w sample_request initial)).
Proof.
  intros w.
  apply (null_record_fails_whole_job w sample_request initial _
           (DownloadReply (Some []) None) [] (Str.replicate 120 "a")).
  - reflexivity.
  - reflexivity.
  - reflexivity.
  - vm_compute. reflexivity.
  - vm_compute. lia.
  - vm_compute. apply list_elem_of_further, list_elem_of_here.
Defined.

(** X16. What the item table does never changes how the job ends: with any
    other table the job row, the status writes, the response and the count of
    OCR entries are the same. When every upsert throws, no row is added, and
    a job that completes still reports its items as saved. *)
Theorem upsert_failures_do_not_change_outcome
    (w : world) (u : nat → credit_item → outcome unit) (req : request) (σ : state) :
  let σ1 := snd (process w req σ) in
  let σ2 := snd (process (with_upsert w u) req σ) in
  pdf_processing_jobs σ2 = pdf_processing_jobs σ1
  ∧ status_writes σ2 = status_writes σ1
  ∧ sent σ2 = sent σ1
  ∧ ocr_invocations σ2 = ocr_invocations σ1
  ∧ ((∀ i row, ∃ e, u i row = Threw e) → credit_items σ2 = credit_items σ).
Proof.
  cbv zeta. unfold process.
  rewrite !Effects.try_catch_run, !Handler.run_job_unfold. cbv zeta.
  change (after_processing (with_upsert w u) req σ) with (after_processing w req σ).
  change (download (with_upsert w u)) with (download w).
  set (σ1 := after_processing w req σ).
  destruct (download w (filePath req)) as [reply|e]; [|by cbn].
  destruct (error reply) as [message|]; [by cbn|].
  destruct (data reply) as [pdfBuffer|]; [|by cbn].
  assert (extractPdfText (with_upsert w u) pdfBuffer σ1 = extractPdfText w pdfBuffer σ1)
    as -> by (by rewrite !Extraction.extractPdfText_unfold).
  destruct (Effects.extractPdfText_frame w pdfBuffer σ1) as [n Hn].
  destruct (extractPdfText w pdfBuffer σ1) as [[text|e] σ2]; cbn in Hn; subst σ2;
    [|by cbn].
  destruct (negb _ || _); [by cbn|].
  rewrite ExtractorFacts.collect_with_upsert.
  destruct (deduplicate _) as [kept|e]; [|by cbn].
  destruct (filter_negative kept) as [neg|e];
    [destruct (project_negative neg) as [accounts|e]|];
    cbn; (split_and!; [done..|]); intros Hu;
    rewrite ExtractorFacts.saved_rows_all_throw by done;
    rewrite ?Effects.add_items_nil; cbn; by rewrite ?app_nil_r.
Qed.

Lemma upsert_failures_do_not_change_outcome_witness :
  let u : nat → credit_item → outcome unit := λ _ _, Threw "connection refused" in
  sent (snd (process (with_upsert digital u) sample_request initial))
  = sent (snd (process digital sample_request initial))
  ∧ credit_items (snd (process (with_upsert digital u) sample_request initial))
    = credit_items initial.
Proof.
  intros u.
  destruct (upsert_failures_do_not_change_outcome digital u sample_request initial)
    as (_ & _ & Hsent & _ & Hrows).
  split; [exact Hsent|]. apply Hrows. intros i row. by exists "connection refused".
Defined.

(** ** Deduplication *)

Module DedupFacts.

Lemma same_key_false x y : same_key x y = false ↔ dedupKey x ≠ dedupKey y.
Proof. unfold same_key. by rewrite bool_decide_eq_false. Qed.

(** The kept records have pairwise distinct keys, none of them seen
    earlier. *)
Lemma keep_first_seen_fresh l : ∀ E,
  NoDup (dedupKey <$> keep_first_seen E l)
  ∧ ∀ y, y ∈ keep_first_seen E l → existsb (same_key y) E = false.
Proof.
  induction l as [|x l IH]; intros E.
  - split; [constructor|]. intros y Hy. by apply elem_of_nil in Hy.
  - cbn [keep_first_seen]. destruct (IH (E ++ [x])) as [Hnd Hfresh].
    assert (∀ y, y ∈ keep_first_seen (E ++ [x]) l →
              existsb (same_key y) E = false ∧ same_key y x = false) as Hfresh'.
    { intros y Hy. apply Hfresh in Hy. rewrite Dedup.existsb_snoc in Hy.
      by apply orb_false_elim in Hy. }
    destruct (existsb (same_key x) E) eqn:Hx.
    + split; [done|]. intros y Hy. by apply Hfresh'.
    + split.
      * cbn. constructor; [|done]. intros Hin.
        apply list_elem_of_fmap in Hin as (y & Hkey & Hy).
        apply Hfresh' in Hy as [_ Hy]. apply same_key_false in Hy. congruence.
      * intros y [->|Hy]%elem_of_cons; [done|]. by apply Hfresh'.
Qed.

(** Records with pairwise distinct keys, none of them seen earlier, are all
    kept. *)
Lemma keep_first_seen_distinct l : ∀ E,
  NoDup (dedupKey <$> l) →
  (∀ y, y ∈ l → existsb (same_key y) E = false) →
  keep_first_seen E l = l.
Proof.
  induction l as [|x l IH]; intros E Hnd Hfresh; [done|].
  cbn in Hnd. apply NoDup_cons in Hnd as [Hx Hnd].
  cbn [keep_first_seen]. rewrite (Hfresh x) by apply list_elem_of_here.
  f_equal. apply IH; [done|]. intros y Hy.
  rewrite Dedup.existsb_snoc, (Hfresh y) by by apply list_elem_of_further.
  cbn. apply same_key_false. intros Hkey. apply Hx.
  apply list_elem_of_fmap. by exists y.
Qed.

Lemma dedup_loop_throws pre bad post e : ∀ seen uniqueItems,
  Forall keyable pre →
  dedupKey bad = Threw e →
  dedup_loop (pre ++ bad :: post) seen uniqueItems = Threw e.
Proof.
  induction pre as [|x pre IH]; intros seen acc Hpre Hbad.
  - cbn. by rewrite Hbad.
  - apply Forall_cons_1 in Hpre as [[key Hkey] Hpre].
    cbn. rewrite Hkey. cbn. destruct (decide (key ∈ seen)); by apply IH.
Qed.

Lemma dedupKey_tradeline creditor type amount s :
  Js.ToString (Js.or amount (VNum 0)) = Returned s →
  dedupKey (tradeline creditor type amount)
  = Returned (creditor +:+ "-" +:+ type +:+ "-" +:+ s).
Proof. intros Hs. unfold dedupKey, tradeline. cbn in Hs |- *. by rewrite Hs. Qed.

End DedupFacts.

(** X17. The deduplication throws at the first record whose key cannot be
    computed, with the error of that record, whatever comes after it; for a
    [null] record this is the TypeError of reading [creditor]. *)
Theorem deduplicate_throws_at_first_bad_record
    (pre post : list jsval) (bad : jsval) (e : string) :
  Forall keyable pre →
  dedupKey bad = Threw e →
  deduplicate (pre ++ bad :: post) = Threw e.
Proof. intros Hpre Hbad. by apply DedupFacts.dedup_loop_throws. Qed.

Lemma deduplicate_throws_at_first_bad_record_witness :
  deduplicate ([acme; visa] ++ VNull :: [acme_dup])
  = Threw "Cannot read properties of null (reading 'creditor')".
Proof.
  apply deduplicate_throws_at_first_bad_record.
  - repeat constructor; eexists; vm_compute; reflexivity.
  - reflexivity.
Defined.

(** X18. Records whose keys are pairwise distinct all come back, in the
    order given: the deduplication drops nothing without a duplicate. *)
Theorem deduplicate_keeps_distinct_records (records : list jsval) :
  Forall keyable records →
  NoDup (dedupKey <$> records) →
  deduplicate records = Returned records.
Proof.
  intros Hkeys Hnd. rewrite Dedup.deduplicate_spec by done. f_equal.
  by apply DedupFacts.keep_first_seen_distinct.
Qed.

Lemma deduplicate_keeps_distinct_records_witness :
  deduplicate [acme; visa; acme_no_amount] = Returned [acme; visa; acme_no_amount].
Proof.
  apply deduplicate_keeps_distinct_records.
  - repeat constructor; eexists; vm_compute; reflexivity.
  - vm_compute. repeat constructor; rewrite ?list_elem_of_In; cbn; intuition discriminate.
Defined.

(** X19. The kept records have pairwise distinct keys, every key of the
    input is the key of a kept record, and there are no more kept records
    than records. *)
Theorem deduplicate_keys_distinct_and_complete (records : list jsval) :
  Forall keyable records →
  ∃ kept,
    deduplicate records = Returned kept
    ∧ NoDup (dedupKey <$> kept)
    ∧ (∀ x, x ∈ records → ∃ y, y ∈ kept ∧ dedupKey y = dedupKey x)
    ∧ length kept ≤ length records.
Proof.
  intros Hkeys. exists (first_occurrences records). split_and!.
  - by apply Dedup.deduplicate_spec.
  - apply DedupFacts.keep_first_seen_fresh.
  - intros x Hx.
    pose proof (Dedup.keep_first_seen_filter x records []) as Hfilter. cbn in Hfilter.
    destruct (List.find (same_key x) records) as [first|] eqn:Hfind.
    + exists first. split.
      * apply list_elem_of_In.
        apply (proj1 (filter_In (same_key x) first (first_occurrences records))).
        unfold first_occurrences. rewrite Hfilter. by left.
      * apply find_some in Hfind as [_ Hsame].
        apply Dedup.same_key_true in Hsame. done.
    + apply list_elem_of_In in Hx.
      pose proof (find_none _ _ Hfind x Hx) as Hno.
      by rewrite Dedup.same_key_refl in Hno.
  - apply sublist_length, Dedup.keep_first_seen_sublist.
Qed.

Lemma deduplicate_keys_distinct_and_complete_witness :
  ∃ kept,
    deduplicate [acme; visa; acme_dup] = Returned kept
    ∧ NoDup (dedupKey <$> kept)
    ∧ (∀ x, x ∈ [acme; visa; acme_dup] → ∃ y, y ∈ kept ∧ dedupKey y = dedupKey x)
    ∧ length kept ≤ length [acme; visa; acme_dup].
Proof.
  apply deduplicate_keys_distinct_and_complete.
  repeat constructor; eexists; vm_compute; reflexivity.
Defined.

(** X20. The key joins its three parts with a hyphen and does not escape
    the hyphens inside them: a record of creditor [a-b] and type [c] has the
    key of a record of creditor [a] and type [b-c] with the same amount, and
    the second of the two is dropped. *)
Theorem dedupKey_separator_collision (a b c : string) (amount : jsval) :
  primitive amount = true →
  dedupKey (tradeline (a +:+ "-" +:+ b) c amount)
  = dedupKey (tradeline a (b +:+ "-" +:+ c) amount)
  ∧ deduplicate [tradeline (a +:+ "-" +:+ b) c amount;
                 tradeline a (b +:+ "-" +:+ c) amount]
    = Returned [tradeline (a +:+ "-" +:+ b) c amount].
Proof.
  intros Hamount.
  destruct (primitive_ToString _ (primitive_or _ Hamount)) as [s Hs].
  assert (dedupKey (tradeline (a +:+ "-" +:+ b) c amount)
          = dedupKey (tradeline a (b +:+ "-" +:+ c) amount)) as Hsame.
  { rewrite !(DedupFacts.dedupKey_tradeline _ _ _ _ Hs).
    by rewrite !StrFacts.app_assoc. }
  split; [done|].
  rewrite Dedup.deduplicate_spec.
  - unfold first_occurrences. cbn.
    assert (same_key (tradeline a (b +:+ "-" +:+ c) amount)
              (tradeline (a +:+ "-" +:+ b) c amount) = true) as ->; [|done].
    by apply Dedup.same_key_true.
  - repeat constructor; eexists;
      apply (DedupFacts.dedupKey_tradeline _ _ _ _ Hs).
Qed.

Lemma dedupKey_separator_collision_witness :
  dedupKey (tradeline ("Capital" +:+ "-" +:+ "One") "AUTO_LOAN" (VNum 1500))
  = dedupKey (tradeline "Capital" ("One" +:+ "-" +:+ "AUTO_LOAN") (VNum 1500))
  ∧ deduplicate [tradeline ("Capital" +:+ "-" +:+ "One") "AUTO_LOAN" (VNum 1500);
                 tradeline "Capital" ("One" +:+ "-" +:+ "AUTO_LOAN") (VNum 1500)]
    = Returned [tradeline ("Capital" +:+ "-" +:+ "One") "AUTO_LOAN" (VNum 1500)].
Proof. apply dedupKey_separator_collision. reflexivity. Defined.

(** ** Structured extraction *)

(** X21. A reply that does not parse to an object gives no record and the
    loop goes on: a reply that is itself an array of records, as the prompt
    asks for ("Return a JSON array"), is not read; a [null] reply throws
    inside the [try] and is skipped. *)
Theorem non_object_reply_gives_no_record (parsed : jsval) :
  (∀ props, parsed ≠ VObj props) → pushed (Returned parsed) = [].
Proof.
  intros Hnot. destruct parsed; try done. by destruct (Hnot props).
Qed.

Lemma non_object_reply_gives_no_record_witness :
  pushed (Returned (VArr [acme; visa])) = [].
Proof. apply non_object_reply_gives_no_record. intros props. discriminate. Defined.

(** X22. [items] decides whenever it is truthy: its elements are the
    records when it is an array, and there are no records when it is anything
    else, whatever [accounts] holds. [accounts] is read only when [items] is
    absent or falsy. *)
Theorem items_take_precedence (props : list (string * jsval)) (items : jsval) :
  Js.own "items" props = Some items →
  (Js.truthy items = true →
   pushed (Returned (VObj props)) = default [] (Js.asArray items))
  ∧ (Js.truthy items = false →
     pushed (Returned (VObj props))
     = default []
         (Js.asArray (Js.or (default VUndefined (Js.own "accounts" props)) (VArr [])))).
Proof.
  intros Hitems. rewrite Extractor.pushed_returned. unfold records_of.
  cbn [Js.get]. rewrite Hitems. cbn.
  split; intros ->; done.
Qed.

Lemma items_take_precedence_witness :
  pushed (Returned (VObj [("items", VStr "see accounts"); ("accounts", VArr [acme])])) = []
  ∧ pushed (Returned (VObj [("items", VNull); ("accounts", VArr [acme])])) = [acme].
Proof.
  split.
  - apply (proj1 (items_take_precedence
                    [("items", VStr "see accounts"); ("accounts", VArr [acme])]
                    (VStr "see accounts") eq_refl)).
    reflexivity.
  - apply (proj2 (items_take_precedence
                    [("items", VNull); ("accounts", VArr [acme])] VNull eq_refl)).
    reflexivity.
Defined.

Module SaveFacts.

Lemma saved_rows_profile w profileId creditItems : ∀ i,
  Forall (λ row, profile_id row = profileId) (saved_rows w profileId i creditItems).
Proof.
  induction creditItems as [|item rest IH]; intros i; [constructor|].
  cbn. apply Forall_app. split; [|apply IH].
  destruct (row_of profileId item) as [row|] eqn:Hrow; [|constructor].
  destruct (upsert w i row); constructor; [|constructor].
  unfold row_of in Hrow.
  destruct item; cbn in Hrow; try discriminate; by injection Hrow as <-.
Qed.

Lemma row_of_keyable profileId item :
  keyable item → ∃ row, row_of profileId item = Returned row.
Proof. intros [key Hkey]. destruct item; cbn in *; (done || eauto). Qed.

Lemma saved_rows_all_return w profileId creditItems : ∀ i,
  (∀ i row, upsert w i row = Returned ()) →
  Forall keyable creditItems →
  length (saved_rows w profileId i creditItems) = length creditItems.
Proof.
  intros i Hu Hkeys. revert i.
  induction Hkeys as [|item rest Hitem _ IH]; intros i; [done|].
  cbn. rewrite length_app, IH.
  destruct (row_of_keyable profileId item Hitem) as [row ->].
  by rewrite Hu.
Qed.

End SaveFacts.

(** X24. A job that reports success has added to the item table at most as
    many rows as the total it reports, each with the profile of the request,
    and exactly that many when no upsert throws. *)
Theorem completed_job_rows (w : world) (req : request) (σ : state)
    (total negative : nat) :
  sent (snd (process w req σ)) = sent σ ++ [Success (jobId req) total negative] →
  ∃ rows,
    credit_items (snd (process w req σ)) = credit_items σ ++ rows
    ∧ Forall (λ row, profile_id row = profileId req) rows
    ∧ length rows ≤ total
    ∧ ((∀ i row, upsert w i row = Returned ()) → length rows = total).
Proof.
  destruct (HandlerFacts.process_outcome w req σ) as (n & _ & Hcases).
  destruct Hcases as [[e ->]|(kept & neg & accounts & Hkeys & _ & _ & ->)]; cbn.
  - intros Hsent. apply app_inv_head in Hsent. done.
  - intros Hsent. apply app_inv_head in Hsent.
    assert (total = length kept) as -> by congruence.
    exists (saved_rows w (profileId req) 0 kept). split_and!.
    + done.
    + apply SaveFacts.saved_rows_profile.
    + apply HandlerFacts.saved_rows_length.
    + intros Hu. by apply SaveFacts.saved_rows_all_return.
Qed.

Lemma completed_job_rows_witness :
  ∃ rows,
    credit_items (snd (process digital sample_request initial))
    = credit_items initial ++ rows
    ∧ Forall (λ row, profile_id row = "profile-1") rows
    ∧ length rows ≤ 3
    ∧ ((∀ i row, upsert digital i row = Returned ()) → length rows = 3).
Proof.
  apply (completed_job_rows digital sample_request initial 3 1).
  vm_compute. reflexivity.
Defined.

(** ** Numbers *)

(** Number::toString on numbers of each notation: integers, a fraction, the
    first integer written with an exponent, an integer above 2^53 (its
    shortest digits followed by zeros) and a small fraction. *)
Example number_texts :
  Js.ToString (VNum 5000) = Returned "5000"
  ∧ Js.ToString (VNum (-120000)) = Returned "-120000"
  ∧ Js.ToString (VNum (Finite false 104 2)) = Returned "10.4"
  ∧ Js.ToString (VNum (10 ^ 21)) = Returned "1e+21"
  ∧ Js.ToString (VNum (Finite false 1152921504606847 19))
    = Returned "1152921504606847000"
  ∧ Js.ToString (VNum (Finite false 15 (-6))) = Returned "1.5e-7"
  ∧ Js.ToString (VNum (Finite false 5 0)) = Returned "0.5".
Proof. split_and!; vm_compute; reflexivity. Qed.
